(** * adsb-map: live aircraft state and track-history buffer

    A shallow embedding of the React hooks of the frontend
    ([useAircraftTracks], [useFilteredAircraft], [useAircraftData]) and of
    [getAircraftColor] from the map component, together with the properties
    of the track buffer, the recency filter, the ingestor and the age colour.

    Conventions of the embedding.
    - JavaScript numbers are exact rationals ([Q]) in the first model,
      which leaves the rounding of binary64 arithmetic out.  It carries the
      properties that rounding cannot change: which buffers exist, their
      length and order, what the filter keeps, and the bounds of the
      colour.  The threshold of the track recorder is a comparison between
      rounded differences, so the recorder is given a second time in the
      module [Doubles], on binary64 numbers ([float]), and the properties
      of the threshold are proved there.
    - [Date.now()] is an explicit argument (an integer count of
      milliseconds, [Z]); a function that reads the clock twice takes two
      readings.
    - A thrown [TypeError] is the result [None].
    - The object used as a dictionary from ICAO 24-bit addresses to arrays
      of points is a [gmap string (list TrackPoint)].  A lookup in the map
      and a lookup in the object agree on the keys the feed delivers, six
      hexadecimal digits; a lookup in the object would also find the
      properties that every object inherits, such as [constructor]. *)

From Stdlib Require Import QArith Qabs Qround Qminmax Qfield ZArith Lia Lqa.
From Stdlib Require Import Ascii DecimalString Sorted.
From Stdlib Require PrimFloat Uint63.
From stdpp Require Import gmap strings list fin_maps sorting.

Local Open Scope Z_scope.

(** ** Values decoded from the JSON response *)

(** An optional numeric field of an aircraft record: the key is missing
    ([undefined]), holds [null], or holds a number. *)
Inductive field : Type :=
  | Missing
  | Null
  | Num (q : Q).


(** Truthiness of a field: [undefined], [null] and [0] are falsy. *)
Definition truthy (v : field) : bool :=
  match v with
  | Num q => negb (Qeq_bool q 0)
  | _ => false
  end.

(** Truthiness of a string: only the empty string is falsy. *)
Definition truthy_string (s : string) : bool :=
  negb (String.eqb s "").

Record aircraft : Type := mkAircraft {
  icao24 : string;
  latitude : field;
  longitude : field;
  lastseen : field
}.

(** [a > b] on numbers. *)
Definition Qgtb (a b : Q) : bool := negb (Qle_bool a b).

(** ** constants.js
    (in the sources: components/ErrorBoundary.jsx, lines 103-148) *)

Definition MAX_TRACK_POINTS : nat := 500.
Definition TRACK_MIN_DISTANCE_CHANGE : Q := 1 # 1000.

(** ** hooks/useAircraftTracks.js
    (in the sources: components/ErrorBoundary.jsx, lines 149-236; the line
    numbers below are those of that file) *)

(** A track point is the array [[lon, lat, timestamp]]; the three fields
    are its entries 0, 1 and 2. *)
Record TrackPoint : Type := mkPoint {
  pt_lon : Q;
  pt_lat : Q;
  pt_time : Z
}.

(** [arr.slice(-n)] for [n > 0]: the last [n] entries, all of them when the
    array is shorter. *)
Definition slice_last {A} (n : nat) (l : list A) : list A :=
  drop (length l - n)%nat l.

(** [for x of l: s = f(s, x)], stopping at the first exception. *)
Fixpoint forEachM {A S} (f : S → A → option S) (l : list A) (s : S) : option S :=
  match l with
  | [] => Some s
  | x :: l' => s' ← f s x; forEachM f l' s'
  end.

(** The test of line 192 on the differences computed on lines 188-189. *)
Definition movedEnough (lastPos position : TrackPoint) : bool :=
  let lonDiff := Qabs (pt_lon lastPos - pt_lon position) in
  let latDiff := Qabs (pt_lat lastPos - pt_lat position) in
  Qgtb lonDiff TRACK_MIN_DISTANCE_CHANGE || Qgtb latDiff TRACK_MIN_DISTANCE_CHANGE.

(** The array after [[...buf, position]] and the cap of lines 196-198. *)
Definition appendCapped (buf : list TrackPoint) (position : TrackPoint) : list TrackPoint :=
  let buf' := buf ++ [position] in
  if (MAX_TRACK_POINTS <? length buf')%nat then slice_last MAX_TRACK_POINTS buf' else buf'.

(** Body of the first [forEach] (lines 177-202). *)
Definition recordPosition (timestamp : Z) (newTracks : gmap string (list TrackPoint))
    (ac : aircraft) : option (gmap string (list TrackPoint)) :=
  match latitude ac, longitude ac with
  | Num la, Num lo =>
      if truthy_string (icao24 ac) then
        let position := mkPoint lo la timestamp in
        match newTracks !! icao24 ac with
        | None => Some (<[icao24 ac := [position]]> newTracks)
        | Some buf =>
            lastPos ← last buf;
            if movedEnough lastPos position
            then Some (<[icao24 ac := appendCapped buf position]> newTracks)
            else Some newTracks
        end
      else Some newTracks
  | _, _ => Some newTracks
  end.

(** [aircraftData.find(ac => ac.icao24 === icao24)] *)
Definition findAircraft (aircraftData : list aircraft) (id : string) : option aircraft :=
  List.find (λ ac, String.eqb (icao24 ac) id) aircraftData.

(** The age that line 213 computes for a buffer's last point, from
    [currentTime] in seconds and the point's time in milliseconds. *)
Definition ageSeconds (currentTime : Z) (lastPoint : TrackPoint) : Q :=
  (inject_Z currentTime - inject_Z (pt_time lastPoint) / 1000)%Q.

(** [ageSeconds > maxAgeSeconds] of lines 206-214. *)
Definition tooOld (maxAgeMinutes : Q) (currentTime : Z) (lastPoint : TrackPoint) : bool :=
  let maxAgeSeconds := (maxAgeMinutes * 60 * 2)%Q in
  Qgtb (ageSeconds currentTime lastPoint) maxAgeSeconds.

(** Body of the second [forEach] (lines 208-218). *)
Definition cleanupOne (maxAgeMinutes : Q) (currentTime : Z) (aircraftData : list aircraft)
    (newTracks : gmap string (list TrackPoint)) (id : string)
    : option (gmap string (list TrackPoint)) :=
  match findAircraft aircraftData id with
  | Some _ => Some newTracks
  | None =>
      buf ← newTracks !! id;
      lastPoint ← last buf;
      if tooOld maxAgeMinutes currentTime lastPoint
      then Some (delete id newTracks)
      else Some newTracks
  end.

(** [Object.keys(newTracks)] *)
Definition keys (m : gmap string (list TrackPoint)) : list string :=
  (map_to_list m).*1.

(** The state updater passed to [setTracks] (lines 173-221).  [timestamp]
    is the clock reading of line 175, [cleanupNow] the one of line 205. *)
Definition updateTracks (maxAgeMinutes : Q) (aircraftData : list aircraft)
    (timestamp cleanupNow : Z) (prevTracks : gmap string (list TrackPoint))
    : option (gmap string (list TrackPoint)) :=
  newTracks ← forEachM (recordPosition timestamp) aircraftData prevTracks;
  let currentTime := cleanupNow `div` 1000 in
  forEachM (cleanupOne maxAgeMinutes currentTime aircraftData) (keys newTracks) newTracks.

(** The effect run when the [aircraft] array changes (lines 227-233). *)
Definition tracksEffect (maxAgeMinutes : Q) (aircraftData : list aircraft)
    (timestamp cleanupNow : Z) (tracks : gmap string (list TrackPoint))
    : option (gmap string (list TrackPoint)) :=
  if (0 <? length aircraftData)%nat
  then updateTracks maxAgeMinutes aircraftData timestamp cleanupNow tracks
  else Some tracks.

(** One arrival of a snapshot, with the two clock readings of its update. *)
Record arrival : Type := mkArrival {
  ar_snapshot : list aircraft;
  ar_timestamp : Z;
  ar_cleanupNow : Z
}.

(** The track map after a sequence of arrivals. *)
Definition runArrivals (maxAgeMinutes : Q) (arrivals : list arrival)
    (tracks : gmap string (list TrackPoint)) : option (gmap string (list TrackPoint)) :=
  forEachM (λ t a, tracksEffect maxAgeMinutes (ar_snapshot a)
                     (ar_timestamp a) (ar_cleanupNow a) t) arrivals tracks.

(** ** hooks/useFilteredAircraft.js
    (in the sources: unnamed/part_001, lines 103-127) *)

(** The predicate given to [aircraft.filter] (lines 120-125).  After the
    falsy test only a non-zero number is left; the two other branches
    follow the coercions of [currentTime - ac.lastseen] ([null] counts as
    0, [undefined] gives [NaN], which compares false). *)
Definition keepAircraft (currentTime : Z) (maxAgeMinutes : Q) (ac : aircraft) : bool :=
  if negb (truthy (lastseen ac)) then true
  else
    match lastseen ac with
    | Num ls =>
        let ageInSeconds := (inject_Z currentTime - ls)%Q in
        let ageInMinutes := (ageInSeconds / 60)%Q in
        Qle_bool ageInMinutes maxAgeMinutes
    | Null => Qle_bool (inject_Z currentTime / 60) maxAgeMinutes
    | Missing => false
    end.

(** The memoised value of the hook; [now] is the reading of [Date.now()]. *)
Definition useFilteredAircraft (aircraftData : list aircraft) (maxAgeMinutes : Q)
    (now : Z) : list aircraft :=
  let currentTime := now `div` 1000 in
  List.filter (keepAircraft currentTime maxAgeMinutes) aircraftData.

(** ** hooks/useAircraftData.js
    (in the sources: unnamed/part_001, lines 57-102) *)

(** The four state cells of the hook. *)
Record ingestor : Type := mkIngestor {
  st_aircraft : list aircraft;
  st_lastUpdate : option Z;
  st_error : option string;
  st_loading : bool
}.

Definition initialIngestor : ingestor :=
  mkIngestor [] None None true.

(** How the promise of [fetchAllAircraft] settles. *)
Inductive fetchResult : Type :=
  | Resolved (data : list aircraft)
  | Rejected (message : string).

(** [fetchAircraft] (lines 76-90): the new state and the returned value.
    [now] is the time of [new Date()]. *)
Definition fetchAircraft (now : Z) (res : fetchResult) (st : ingestor)
    : ingestor * option (list aircraft) :=
  match res with
  | Resolved data => (mkIngestor data (Some now) None false, Some data)
  | Rejected message =>
      (mkIngestor (st_aircraft st) (st_lastUpdate st) (Some message) false, None)
  end.

(** The application between two ticks: the ingestor's cells, the track
    map, and the period (in milliseconds) of the running interval timer,
    if one is running. *)
Record app : Type := mkApp {
  app_ingestor : ingestor;
  app_tracks : gmap string (list TrackPoint);
  app_interval : option Q
}.

(** Mounting the hook with [refreshInterval] (lines 92-99): the timer is
    started; unmounting clears it. *)
Definition mount (refreshInterval : Q) (a : app) : app :=
  mkApp (app_ingestor a) (app_tracks a) (Some (refreshInterval * 1000)%Q).

Definition unmount (a : app) : app :=
  mkApp (app_ingestor a) (app_tracks a) None.

(** One tick.  The tracks effect depends on the [aircraft] array, so it
    runs after a fetch that stored a new array and not after a failed one.
    Nothing in [fetchAircraft] touches the timer. *)
Definition tick (maxAgeMinutes : Q) (now timestamp cleanupNow : Z)
    (res : fetchResult) (a : app) : option app :=
  let st' := (fetchAircraft now res (app_ingestor a)).1 in
  match res with
  | Resolved data =>
      t ← tracksEffect maxAgeMinutes data timestamp cleanupNow (app_tracks a);
      Some (mkApp st' t (app_interval a))
  | Rejected _ => Some (mkApp st' (app_tracks a) (app_interval a))
  end.

(** ** components/AircraftMap.jsx: getAircraftColor
    (in the sources: unnamed/part_000, lines 173-190) *)

(** The value of an arithmetic expression that may divide by zero. *)
Inductive jsnum : Type :=
  | Finite (q : Q)
  | PosInf
  | NegInf
  | NaN.

(** [a / b] *)
Definition jsdiv (a b : Q) : jsnum :=
  if Qeq_bool b 0 then
    if Qgtb a 0 then PosInf else if Qgtb 0 a then NegInf else NaN
  else Finite (a / b).

(** [Math.min(x, 1)] *)
Definition jsmin1 (x : jsnum) : jsnum :=
  match x with
  | Finite q => if Qle_bool q 1 then Finite q else Finite 1
  | PosInf => Finite 1
  | NegInf => NegInf
  | NaN => NaN
  end.

(** [Math.round(x)]: the nearest integer, halves rounded up.  The code
    rounds the binary64 value of its argument; that is the same integer
    unless the exact value is within the rounding error of a half. *)
Definition jsround (x : Q) : Z := Qfloor (x + (1 # 2)).

(** The text of an integer in a template literal, for the integers that
    are printed digit by digit (those below [10^21] in absolute value). *)
Definition showZ (z : Z) : string :=
  NilZero.string_of_int (Z.to_int z).

(** [Math.round(from + (to - from) * ratio)] as printed, for [from < to]. *)
Definition channel (from to : Z) (ratio : jsnum) : string :=
  match ratio with
  | Finite r => showZ (jsround (inject_Z from + (inject_Z to - inject_Z from) * r))
  | PosInf => "Infinity"
  | NegInf => "-Infinity"
  | NaN => "NaN"
  end.

Definition rgbText (r g b : string) : string :=
  "rgb(" ++ r ++ ", " ++ g ++ ", " ++ b ++ ")".

(** Lines 173-190; [now] is the reading of [Date.now()] and
    [maxAgeMinutes] the prop of the component. *)
Definition getAircraftColor (now : Z) (maxAgeMinutes : Q) (lastseen : field) : string :=
  if negb (truthy lastseen) then "#e74c3c"
  else
    let ratio :=
      match lastseen with
      | Num ls =>
          let currentTime := now `div` 1000 in
          let ageInSeconds := (inject_Z currentTime - ls)%Q in
          let ageInMinutes := (ageInSeconds / 60)%Q in
          jsmin1 (jsdiv ageInMinutes maxAgeMinutes)
      | Null => jsmin1 (jsdiv (inject_Z (now `div` 1000) / 60) maxAgeMinutes)
      | Missing => NaN
      end in
    rgbText (channel 231 255 ratio) (channel 76 179 ratio) (channel 60 168 ratio).

(** The red, green and blue bytes of a colour written [#rrggbb]. *)
Definition hexDigit (c : ascii) : option Z :=
  let n := Z.of_nat (nat_of_ascii c) in
  if (48 <=? n) && (n <=? 57) then Some (n - 48)
  else if (97 <=? n) && (n <=? 102) then Some (n - 87)
  else if (65 <=? n) && (n <=? 70) then Some (n - 55)
  else None.



(** ** components/AircraftMap.jsx: markers
    (in the sources: unnamed/part_000, line 219) *)

(** [aircraft.filter(a => a.latitude && a.longitude)] (lines 107 and 219). *)
Definition validAircraft (aircraftData : list aircraft) : list aircraft :=
  List.filter (λ a, truthy (latitude a) && truthy (longitude a)) aircraftData.

(** ** components/AircraftMap.jsx: callsign and marker title
    (in the sources: unnamed/part_000, lines 162-164 and 423-431) *)

(** [s.replace(/_+$/, '')]: the string without the underscores at its end. *)
Fixpoint stripTrailingUnderscores (s : string) : string :=
  match s with
  | EmptyString => EmptyString
  | String c s' =>
      let r := stripTrailingUnderscores s' in
      if Ascii.eqb c "_" && String.eqb r "" then EmptyString else String c r
  end.

(** [callsign?.replace(/_+$/, '') || 'Unknown']; [None] is a callsign that
    is [null] or [undefined]. *)
Definition cleanCallsign (callsign : option string) : string :=
  match callsign with
  | Some s =>
      let r := stripTrailingUnderscores s in
      if truthy_string r then r else "Unknown"
  | None => "Unknown"
  end.

(** [parts.filter(Boolean)] on an array of strings and [null]s. *)
Definition filterBoolean (parts : list (option string)) : list string :=
  omap (λ part, match part with
                | Some s => if truthy_string s then Some s else None
                | None => None
                end) parts.

(** The [title] of a marker (lines 423-431). *)
Definition markerTitle (callsign : option string) (icao24 : string)
    (registration typecode : option string) : string :=
  String.concat " "
    (filterBoolean
       [ Some (let c := cleanCallsign callsign in if truthy_string c then c else icao24);
         match registration with
         | Some r => if truthy_string r then Some ("(" ++ r ++ ")")%string else None
         | None => None
         end;
         match typecode with
         | Some t => if truthy_string t then Some ("- " ++ t)%string else None
         | None => None
         end ]).

(** ** components/AircraftMap.jsx: GeoJSON of the tracks
    (in the sources: unnamed/part_000, lines 228-326).  Of each feature
    collection the array [features] is modelled, and of each feature the
    properties and coordinates; the constant [type] tags are left out.
    The order in which [Object.entries] lists the buffers is not
    modelled: the features come in the order of [map_to_list]. *)

Record lineFeature : Type := mkLine {
  lf_icao24 : string;
  lf_coordinates : list (Q * Q)
}.

(** [tracksGeoJSON] (lines 228-250). *)
Definition tracksGeoJSON (tracks : gmap string (list TrackPoint)) : list lineFeature :=
  fold_left
    (λ features entry,
       let '(icao24, points) := entry in
       if (2 <=? length points)%nat
       then features ++ [mkLine icao24 ((λ p, (pt_lon p, pt_lat p)) <$> points)]
       else features)
    (map_to_list tracks) [].

(** A position of the detailed track fetched for the selected aircraft;
    the type of its [timestamp] plays no role. *)
Record position (T : Type) : Type := mkPosition {
  pos_longitude : field;
  pos_latitude : field;
  pos_timestamp : T
}.
Arguments mkPosition {T} _ _ _.
Arguments pos_longitude {T} _.
Arguments pos_latitude {T} _.
Arguments pos_timestamp {T} _.

(** [v !== null] *)
Definition notNull (v : field) : bool :=
  match v with Null => false | _ => true end.

(** [pos => pos.longitude !== null && pos.latitude !== null] *)
Definition hasCoordinates {T} (pos : position T) : bool :=
  notNull (pos_longitude pos) && notNull (pos_latitude pos).

Record selectedLine : Type := mkSelectedLine {
  sl_icao24 : option string;
  sl_coordinates : list (field * field)
}.

Record selectedPoint (T : Type) : Type := mkSelectedPoint {
  sp_icao24 : option string;
  sp_timestamp : T;
  sp_index : nat;
  sp_coordinates : field * field
}.
Arguments mkSelectedPoint {T} _ _ _ _.
Arguments sp_icao24 {T} _.
Arguments sp_timestamp {T} _.
Arguments sp_index {T} _.
Arguments sp_coordinates {T} _.

(** [selectedTrackLineGeoJSON] (lines 256-289); the track is [None] when
    [selectedAircraftTrack] is [null], and [selectedIcao24] is
    [selectedAircraft?.icao24]. *)
Definition selectedTrackLine {T} (selectedAircraftTrack : option (list (position T)))
    (selectedIcao24 : option string) : list selectedLine :=
  match selectedAircraftTrack with
  | None => []
  | Some track =>
      if (length track <? 2)%nat then []
      else
        let coordinates :=
          (λ pos, (pos_longitude pos, pos_latitude pos))
            <$> List.filter hasCoordinates track in
        if (length coordinates <? 2)%nat then []
        else [mkSelectedLine selectedIcao24 coordinates]
  end.

(** [selectedTrackPointsGeoJSON] (lines 295-323). *)
Definition selectedTrackPoints {T} (selectedAircraftTrack : option (list (position T)))
    (selectedIcao24 : option string) : list (selectedPoint T) :=
  match selectedAircraftTrack with
  | None => []
  | Some track =>
      if (length track =? 0)%nat then []
      else
        imap (λ index pos,
                mkSelectedPoint selectedIcao24 (pos_timestamp pos) index
                                (pos_longitude pos, pos_latitude pos))
             (List.filter hasCoordinates track)
  end.

(** ** hooks/useTheme.js and the map style
    (in the sources: unnamed/part_001, lines 9-56; unnamed/part_000,
    line 222; constants.js) *)

Definition MAP_STYLE_LIGHT : string := "mapbox://styles/mapbox/light-v11".
Definition MAP_STYLE_DARK : string := "mapbox://styles/mapbox/dark-v11".

(** The initial state of [themePreference], read from [localStorage]. *)
Definition initialPreference (storage : gmap string string) : string :=
  match storage !! "themePreference" with
  | Some saved => if truthy_string saved then saved else "auto"
  | None => "auto"
  end.

(** The theme that [updateTheme] applies; [systemDark] is
    [mediaQuery.matches]. *)
Definition appliedTheme (themePreference : string) (systemDark : bool) : string :=
  if String.eqb themePreference "auto"
  then (if systemDark then "dark" else "light")
  else themePreference.

(** [setTheme]: the new preference and the storage after it. *)
Definition setTheme (newPreference : string) (storage : gmap string string)
    : string * gmap string string :=
  (newPreference, <["themePreference" := newPreference]> storage).

(** [theme === 'dark' ? MAP_STYLE_DARK : MAP_STYLE_LIGHT] *)
Definition mapStyle (theme : string) : string :=
  if String.eqb theme "dark" then MAP_STYLE_DARK else MAP_STYLE_LIGHT.

(** ** Auxiliary notions used in the statements *)

(** Every buffer of the map holds at least one point. *)
Definition nonEmptyBuffers (m : gmap string (list TrackPoint)) : Prop :=
  map_Forall (λ _ b, b ≠ []) m.

(** The snapshot holds a record with this identifier. *)
Definition present (aircraftData : list aircraft) (id : string) : Prop :=
  ∃ ac, ac ∈ aircraftData ∧ icao24 ac = id.

(** The track map after the first loop of an update. *)
Definition recordAll (timestamp : Z) (aircraftData : list aircraft)
    (m : gmap string (list TrackPoint)) : option (gmap string (list TrackPoint)) :=
  forEachM (recordPosition timestamp) aircraftData m.

(** [b'] comes from [b] by appending points stamped [ts] at the end and
    dropping points from the front.  A missing buffer counts as [[]]. *)
Definition grows (ts : Z) (b b' : list TrackPoint) : Prop :=
  ∃ (k : nat) (news : list TrackPoint),
    b' = drop k (b ++ news) ∧ (k ≤ length (b ++ news))%nat ∧
    Forall (λ p, pt_time p = ts) news.

(** What the cleanup loop leaves of a buffer whose identifier is absent
    from the snapshot. *)
Definition afterCleanup (maxAgeMinutes : Q) (currentTime : Z)
    (buf : list TrackPoint) : option (list TrackPoint) :=
  match last buf with
  | Some lastPoint => if tooOld maxAgeMinutes currentTime lastPoint then None else Some buf
  | None => Some buf
  end.

(** No buffer of the map is longer than the cap. *)
Definition capped (m : gmap string (list TrackPoint)) : Prop :=
  map_Forall (λ _ b, (length b ≤ MAX_TRACK_POINTS)%nat) m.

(** One sighting of an aircraft: a snapshot that holds a single record
    with numeric coordinates, and the clock readings of its update. *)
Record sighting : Type := mkSighting {
  s_lon : Q;
  s_lat : Q;
  s_lastseen : field;
  s_time : Z;
  s_cleanupNow : Z
}.

Definition sightingArrival (id : string) (s : sighting) : arrival :=
  mkArrival [mkAircraft id (Num (s_lat s)) (Num (s_lon s)) (s_lastseen s)]
            (s_time s) (s_cleanupNow s).

(** The point an update records for a sighting. *)
Definition sightingPoint (s : sighting) : TrackPoint :=
  mkPoint (s_lon s) (s_lat s) (s_time s).

(** A position differs from a point by more than the threshold on some
    axis, or by at most the threshold on both. *)
Definition farFrom (p : TrackPoint) (lon lat : Q) : Prop :=
  (TRACK_MIN_DISTANCE_CHANGE < Qabs (pt_lon p - lon) ∨
   TRACK_MIN_DISTANCE_CHANGE < Qabs (pt_lat p - lat))%Q.

Definition closeTo (p : TrackPoint) (lon lat : Q) : Prop :=
  (Qabs (pt_lon p - lon) <= TRACK_MIN_DISTANCE_CHANGE ∧
   Qabs (pt_lat p - lat) <= TRACK_MIN_DISTANCE_CHANGE)%Q.

(** A relation holds between every entry of a list and the next one. *)
Fixpoint consecutive {A} (R : A → A → Prop) (l : list A) : Prop :=
  match l with
  | x :: t => match t with y :: _ => R x y | [] => True end ∧ consecutive R t
  | [] => True
  end.


(** The capture times of a buffer never decrease along it. *)
Definition chronological (b : list TrackPoint) : Prop :=
  Sorted Z.le (pt_time <$> b).

(** Every buffer is ordered by capture time and holds no point captured
    after [c]. *)
Definition timedBefore (c : Z) (m : gmap string (list TrackPoint)) : Prop :=
  map_Forall (λ _ b, StronglySorted Z.le (pt_time <$> b) ∧
                     Forall (λ p, pt_time p ≤ c) b) m.

(** Whether a buffer is non-empty can be computed. *)
#[global] Instance buffer_nonempty_dec (b : list TrackPoint) : Decision (b ≠ []).
Proof. destruct b; [right; by intros H | left; done]. Defined.

(** The first three snapshots of the end-to-end scenario of the
    specification: aircraft "A" at seconds 1000, 1060 and 1120. *)
Definition scenario : list arrival :=
  [ mkArrival [mkAircraft "A" (Num 10) (Num 20) (Num 1000)] 1000000 1000000;
    mkArrival [mkAircraft "A" (Num (100005 # 10000)) (Num (200005 # 10000)) (Num 1060)]
              1060000 1060000;
    mkArrival [mkAircraft "A" (Num (1001 # 100)) (Num (2001 # 100)) (Num 1120)]
              1120000 1120000 ].


(** The point [p] carries the coordinates of a record with identifier [id]
    of one of the arrivals, and the clock reading of that arrival. *)
Definition reportedBy (arrivals : list arrival) (id : string) (p : TrackPoint) : Prop :=
  ∃ a ac, a ∈ arrivals ∧ ac ∈ ar_snapshot a ∧ icao24 ac = id ∧
          latitude ac = Num (pt_lat p) ∧ longitude ac = Num (pt_lon p) ∧
          pt_time p = ar_timestamp a.

(** What the body of the first loop makes of the buffer [old] of the
    record's own identifier. *)
Definition recordedBuffer (ts : Z) (ac : aircraft) (old : option (list TrackPoint))
    : option (list TrackPoint) :=
  match latitude ac, longitude ac with
  | Num la, Num lo =>
      if truthy_string (icao24 ac) then
        match old with
        | None => Some [mkPoint lo la ts]
        | Some buf =>
            match last buf with
            | Some lastPos =>
                if movedEnough lastPos (mkPoint lo la ts)
                then Some (appendCapped buf (mkPoint lo la ts))
                else Some buf
            | None => Some buf
            end
        end
      else old
  | _, _ => old
  end.

(** A string of [n] underscores. *)
Fixpoint underscores (n : nat) : string :=
  match n with
  | O => EmptyString
  | S n' => String "_" (underscores n')
  end.

(** The ingestor after a sequence of settled fetches, each with the time
    at which it settled. *)
Definition runFetches (fetches : list (Z * fetchResult)) (st : ingestor) : ingestor :=
  fold_left (λ st f, (fetchAircraft f.1 f.2 st).1) fetches st.

(** The fetch was rejected. *)
Definition failed (f : Z * fetchResult) : Prop :=
  ∃ message, f.2 = Rejected message.

(** An ICAO 24-bit address as the feed writes it: six hexadecimal
    digits.  No property that an object inherits has such a name. *)
Fixpoint hexDigits (s : string) : bool :=
  match s with
  | EmptyString => true
  | String c s' => bool_decide (is_Some (hexDigit c)) && hexDigits s'
  end.

Definition icaoAddress (id : string) : bool :=
  (String.length id =? 6)%nat && hexDigits id.

(** Every record of the snapshot that has an identifier has an ICAO
    24-bit address. *)
Definition identified (aircraftData : list aircraft) : bool :=
  forallb (λ ac, negb (truthy_string (icao24 ac)) || icaoAddress (icao24 ac)) aircraftData.

(** ** The track recorder on binary64 numbers

    The coordinates of a record are binary64 numbers, and line 192 compares
    differences that were rounded.  The module below gives
    [hooks/useAircraftTracks.js] (components/ErrorBoundary.jsx, lines
    149-236) once more, with the numbers of the code: a [float] is an IEEE
    754 binary64 value, its operations round to nearest, and a comparison
    with [NaN] is false.  A time is still an integer count of milliseconds;
    it becomes a binary64 number, without rounding below [2^53], where line
    213 computes with it. *)

Module Doubles.
Import PrimFloat.

(** A decimal constant stands for the nearest binary64 number, as it does
    in JavaScript and in [JSON.parse]. *)
#[local] Set Warnings "-inexact-float".

Inductive field : Type :=
  | Missing
  | Null
  | Num (x : float).

Record aircraft : Type := mkAircraft {
  icao24 : string;
  latitude : field;
  longitude : field;
  lastseen : field
}.

(** The binary64 number of an integer. *)
Definition number (z : Z) : float :=
  if z <? 0 then PrimFloat.opp (PrimFloat.of_uint63 (Uint63.of_Z (- z)))
  else PrimFloat.of_uint63 (Uint63.of_Z z).

(** [a > b] on numbers. *)
Definition gtb (a b : float) : bool := PrimFloat.ltb b a.

(** [TRACK_MIN_DISTANCE_CHANGE = 0.001] (line 128). *)
Definition TRACK_MIN_DISTANCE_CHANGE : float := 0.001%float.

(** A track point is the array [[lon, lat, timestamp]]. *)
Record TrackPoint : Type := mkPoint {
  pt_lon : float;
  pt_lat : float;
  pt_time : Z
}.

(** The test of line 192 on the differences computed on lines 188-189. *)
Definition movedEnough (lastPos position : TrackPoint) : bool :=
  let lonDiff := PrimFloat.abs (pt_lon lastPos - pt_lon position)%float in
  let latDiff := PrimFloat.abs (pt_lat lastPos - pt_lat position)%float in
  gtb lonDiff TRACK_MIN_DISTANCE_CHANGE || gtb latDiff TRACK_MIN_DISTANCE_CHANGE.

(** The array after [[...buf, position]] and the cap of lines 196-198. *)
Definition appendCapped (buf : list TrackPoint) (position : TrackPoint) : list TrackPoint :=
  let buf' := buf ++ [position] in
  if (MAX_TRACK_POINTS <? length buf')%nat then slice_last MAX_TRACK_POINTS buf' else buf'.

(** Body of the first [forEach] (lines 177-202). *)
Definition recordPosition (timestamp : Z) (newTracks : gmap string (list TrackPoint))
    (ac : aircraft) : option (gmap string (list TrackPoint)) :=
  match latitude ac, longitude ac with
  | Num la, Num lo =>
      if truthy_string (icao24 ac) then
        let position := mkPoint lo la timestamp in
        match newTracks !! icao24 ac with
        | None => Some (<[icao24 ac := [position]]> newTracks)
        | Some buf =>
            lastPos ← last buf;
            if movedEnough lastPos position
            then Some (<[icao24 ac := appendCapped buf position]> newTracks)
            else Some newTracks
        end
      else Some newTracks
  | _, _ => Some newTracks
  end.

(** [aircraftData.find(ac => ac.icao24 === icao24)] *)
Definition findAircraft (aircraftData : list aircraft) (id : string) : option aircraft :=
  List.find (λ ac, String.eqb (icao24 ac) id) aircraftData.

(** The age that line 213 computes for a buffer's last point.
    [currentTime] is [Math.floor(Date.now() / 1000)], a whole number. *)
Definition ageSeconds (currentTime : Z) (lastPoint : TrackPoint) : float :=
  (number currentTime - number (pt_time lastPoint) / 1000)%float.

(** [ageSeconds > maxAgeSeconds] of lines 206-214. *)
Definition tooOld (maxAgeMinutes : float) (currentTime : Z) (lastPoint : TrackPoint) : bool :=
  let maxAgeSeconds := (maxAgeMinutes * 60 * 2)%float in
  gtb (ageSeconds currentTime lastPoint) maxAgeSeconds.

(** Body of the second [forEach] (lines 208-218). *)
Definition cleanupOne (maxAgeMinutes : float) (currentTime : Z) (aircraftData : list aircraft)
    (newTracks : gmap string (list TrackPoint)) (id : string)
    : option (gmap string (list TrackPoint)) :=
  match findAircraft aircraftData id with
  | Some _ => Some newTracks
  | None =>
      buf ← newTracks !! id;
      lastPoint ← last buf;
      if tooOld maxAgeMinutes currentTime lastPoint
      then Some (delete id newTracks)
      else Some newTracks
  end.

(** [Object.keys(newTracks)] *)
Definition keys (m : gmap string (list TrackPoint)) : list string :=
  (map_to_list m).*1.

(** The state updater passed to [setTracks] (lines 173-221). *)
Definition updateTracks (maxAgeMinutes : float) (aircraftData : list aircraft)
    (timestamp cleanupNow : Z) (prevTracks : gmap string (list TrackPoint))
    : option (gmap string (list TrackPoint)) :=
  newTracks ← forEachM (recordPosition timestamp) aircraftData prevTracks;
  let currentTime := cleanupNow `div` 1000 in
  forEachM (cleanupOne maxAgeMinutes currentTime aircraftData) (keys newTracks) newTracks.

(** The effect run when the [aircraft] array changes (lines 227-233). *)
Definition tracksEffect (maxAgeMinutes : float) (aircraftData : list aircraft)
    (timestamp cleanupNow : Z) (tracks : gmap string (list TrackPoint))
    : option (gmap string (list TrackPoint)) :=
  if (0 <? length aircraftData)%nat
  then updateTracks maxAgeMinutes aircraftData timestamp cleanupNow tracks
  else Some tracks.

(** One arrival of a snapshot, with the two clock readings of its update. *)
Record arrival : Type := mkArrival {
  ar_snapshot : list aircraft;
  ar_timestamp : Z;
  ar_cleanupNow : Z
}.

(** The track map after a sequence of arrivals. *)
Definition runArrivals (maxAgeMinutes : float) (arrivals : list arrival)
    (tracks : gmap string (list TrackPoint)) : option (gmap string (list TrackPoint)) :=
  forEachM (λ t a, tracksEffect maxAgeMinutes (ar_snapshot a)
                     (ar_timestamp a) (ar_cleanupNow a) t) arrivals tracks.

(** *** Auxiliary notions *)

(** Every buffer of the map holds at least one point. *)
Definition nonEmptyBuffers (m : gmap string (list TrackPoint)) : Prop :=
  map_Forall (λ _ b, b ≠ []) m.

#[global] Instance buffer_nonempty_dec_f64 (b : list TrackPoint) : Decision (b ≠ []).
Proof. destruct b; [right; by intros H | left; done]. Defined.

(** The snapshot holds a record with this identifier. *)
Definition present (aircraftData : list aircraft) (id : string) : Prop :=
  ∃ ac, ac ∈ aircraftData ∧ icao24 ac = id.

(** Every record of the snapshot that has an identifier has an ICAO
    24-bit address. *)
Definition identified (aircraftData : list aircraft) : bool :=
  forallb (λ ac, negb (truthy_string (icao24 ac)) || icaoAddress (icao24 ac)) aircraftData.

(** The track map after the first loop of an update. *)
Definition recordAll (timestamp : Z) (aircraftData : list aircraft)
    (m : gmap string (list TrackPoint)) : option (gmap string (list TrackPoint)) :=
  forEachM (recordPosition timestamp) aircraftData m.

(** What the cleanup loop leaves of a buffer whose identifier is absent
    from the snapshot. *)
Definition afterCleanup (maxAgeMinutes : float) (currentTime : Z)
    (buf : list TrackPoint) : option (list TrackPoint) :=
  match last buf with
  | Some lastPoint => if tooOld maxAgeMinutes currentTime lastPoint then None else Some buf
  | None => Some buf
  end.

(** One sighting of an aircraft: a snapshot that holds a single record
    with numeric coordinates, and the clock readings of its update. *)
Record sighting : Type := mkSighting {
  s_lon : float;
  s_lat : float;
  s_lastseen : field;
  s_time : Z;
  s_cleanupNow : Z
}.

Definition sightingArrival (id : string) (s : sighting) : arrival :=
  mkArrival [mkAircraft id (Num (s_lat s)) (Num (s_lon s)) (s_lastseen s)]
            (s_time s) (s_cleanupNow s).

(** The point an update records for a sighting. *)
Definition sightingPoint (s : sighting) : TrackPoint :=
  mkPoint (s_lon s) (s_lat s) (s_time s).

(** The computed difference between two coordinates is greater than the
    threshold. *)
Definition exceeds (a b : float) : bool :=
  gtb (PrimFloat.abs (a - b)%float) TRACK_MIN_DISTANCE_CHANGE.

(** A position passes the test of line 192 against a point on some axis,
    or fails it on both. *)
Definition farFrom (p : TrackPoint) (lon lat : float) : Prop :=
  exceeds (pt_lon p) lon = true ∨ exceeds (pt_lat p) lat = true.

Definition closeTo (p : TrackPoint) (lon lat : float) : Prop :=
  exceeds (pt_lon p) lon = false ∧ exceeds (pt_lat p) lat = false.

(** The position of [s2] compared with the position of [s1]. *)
Definition sightingClose (s1 s2 : sighting) : Prop :=
  closeTo (sightingPoint s1) (s_lon s2) (s_lat s2).

(** Two recorded points of which the second passed the test of line 192
    against the first. *)
Definition pointsFar (p q : TrackPoint) : Prop :=
  farFrom p (pt_lon q) (pt_lat q).

(** Three sightings of an aircraft that drifts east by 0.0008 degrees
    between any two of them. *)
Definition drifting : list sighting :=
  [ mkSighting 20 10 Missing 1000000 1000000;
    mkSighting 20.0008 10 Missing 1060000 1060000;
    mkSighting 20.0016 10 Missing 1120000 1120000 ].

End Doubles.

(** ** Basic facts *)

Lemma Qgtb_true a b : Qgtb a b = true ↔ (b < a)%Q.
Proof.
  unfold Qgtb. rewrite negb_true_iff.
  destruct (Qle_bool a b) eqn:E.
  - apply Qle_bool_iff in E. split; [done | intros H; lra].
  - split; [intros _ | done].
    apply Qnot_le_lt. intros H. apply Qle_bool_iff in H. congruence.
Qed.

Lemma Qgtb_false a b : Qgtb a b = false ↔ (a <= b)%Q.
Proof.
  unfold Qgtb. rewrite negb_false_iff. apply Qle_bool_iff.
Qed.

Lemma forEachM_app {A S} (f : S → A → option S) l1 l2 s :
  forEachM f (l1 ++ l2) s = s' ← forEachM f l1 s; forEachM f l2 s'.
Proof.
  revert s. induction l1 as [|x l1 IH]; intros s; simpl; [done|].
  destruct (f s x) as [s1|]; simpl; [apply IH | done].
Qed.

(** An invariant of the loop body is an invariant of the loop, and a body
    that never throws under the invariant gives a loop that never throws. *)
Lemma forEachM_invariant {A S} (f : S → A → option S) (I : S → Prop) l s :
  (∀ s x, I s → x ∈ l → ∃ s', f s x = Some s' ∧ I s') →
  I s → ∃ s', forEachM f l s = Some s' ∧ I s'.
Proof.
  revert s. induction l as [|x l IH]; intros s Hf Hs; simpl; [eauto|].
  destruct (Hf s x Hs) as (s1 & -> & Hs1); [left|]. simpl.
  apply IH; [|done]. intros s2 y Hs2 Hy. apply Hf; [done | by right].
Qed.

Lemma findAircraft_Some data id ac :
  findAircraft data id = Some ac → ac ∈ data ∧ icao24 ac = id.
Proof.
  unfold findAircraft. intros H. apply find_some in H as [Hin Heq].
  split; [by apply list_elem_of_In | by apply String.eqb_eq].
Qed.

Lemma findAircraft_None data id :
  findAircraft data id = None ↔ ¬ present data id.
Proof.
  unfold findAircraft, present. split.
  - intros H (ac & Hin & Heq).
    apply list_elem_of_In in Hin.
    pose proof (find_none _ _ H ac Hin) as Hn. simpl in Hn.
    apply String.eqb_neq in Hn. done.
  - intros H. destruct (find _ data) as [ac|] eqn:E; [|done].
    destruct (findAircraft_Some data id ac E) as [Hin Heq].
    exfalso. apply H. eauto.
Qed.

Lemma findAircraft_present data id :
  present data id ↔ is_Some (findAircraft data id).
Proof.
  split.
  - intros Hp. destruct (findAircraft data id) eqn:E; [eauto|].
    by apply findAircraft_None in E.
  - intros [ac Hac]. apply findAircraft_Some in Hac. exists ac. done.
Qed.

Lemma last_is_Some {A} (l : list A) : l ≠ [] → is_Some (last l).
Proof.
  intros H. destruct (last l) eqn:E; [eauto|].
  by apply last_None in E.
Qed.

Lemma slice_last_length {A} n (l : list A) :
  length (slice_last n l) = Nat.min n (length l).
Proof. unfold slice_last. rewrite length_drop. lia. Qed.

Lemma appendCapped_length buf p :
  (length buf ≤ MAX_TRACK_POINTS)%nat →
  (length (appendCapped buf p) ≤ MAX_TRACK_POINTS)%nat.
Proof.
  intros H. unfold appendCapped.
  destruct (Nat.ltb_spec MAX_TRACK_POINTS (length (buf ++ [p]))).
  - rewrite slice_last_length. lia.
  - lia.
Qed.

Lemma appendCapped_drop buf p :
  appendCapped buf p = drop (length (buf ++ [p]) - MAX_TRACK_POINTS)%nat (buf ++ [p]).
Proof.
  unfold appendCapped, slice_last.
  destruct (Nat.ltb_spec MAX_TRACK_POINTS (length (buf ++ [p]))); [done|].
  replace (length (buf ++ [p]) - MAX_TRACK_POINTS)%nat with 0%nat by lia. done.
Qed.

Lemma appendCapped_last buf p : last (appendCapped buf p) = Some p.
Proof.
  rewrite appendCapped_drop.
  rewrite length_app. simpl.
  assert (length buf + 1 - MAX_TRACK_POINTS ≤ length buf)%nat as Hk
    by (unfold MAX_TRACK_POINTS; lia).
  rewrite drop_app_le by done.
  apply last_snoc.
Qed.

Lemma appendCapped_nonempty buf p : appendCapped buf p ≠ [].
Proof.
  intros H. pose proof (appendCapped_last buf p) as HL. rewrite H in HL. done.
Qed.

(** ** The first loop: recording positions *)

Lemma grows_refl ts b : grows ts b b.
Proof.
  exists 0%nat, []. rewrite app_nil_r. simpl. repeat split; [lia | constructor].
Qed.

Lemma grows_append ts b b' lo la :
  grows ts b b' → grows ts b (appendCapped b' (mkPoint lo la ts)).
Proof.
  intros (k & news & -> & Hk & Hnews).
  rewrite appendCapped_drop.
  set (p := mkPoint lo la ts).
  set (k2 := (length (drop k (b ++ news) ++ [p]) - MAX_TRACK_POINTS)%nat).
  exists (k + k2)%nat, (news ++ [p]). repeat split.
  - rewrite <- drop_drop. f_equal. rewrite (assoc_L (++)).
    symmetry. by apply drop_app_le.
  - subst k2. rewrite !length_app, length_drop, !length_app in *.
    unfold MAX_TRACK_POINTS. simpl. lia.
  - apply Forall_app. split; [done|]. by repeat constructor.
Qed.

Lemma grows_singleton ts lo la : grows ts [] [mkPoint lo la ts].
Proof.
  exists 0%nat, [mkPoint lo la ts]. simpl. repeat split; [lia|].
  by repeat constructor.
Qed.

(** One record never throws on a map of non-empty buffers; it touches at
    most the buffer of its own identifier, which it creates, extends or
    leaves alone. *)
Lemma recordPosition_step ts m ac :
  nonEmptyBuffers m →
  ∃ m', recordPosition ts m ac = Some m' ∧ nonEmptyBuffers m' ∧
        (∀ id, id ≠ icao24 ac → m' !! id = m !! id) ∧
        (∀ id, is_Some (m !! id) → is_Some (m' !! id)) ∧
        (∀ b', m' !! icao24 ac = Some b' →
               grows ts (default [] (m !! icao24 ac)) b') ∧
        (∀ b', m' !! icao24 ac = Some b' →
               (length (default [] (m !! icao24 ac)) ≤ MAX_TRACK_POINTS)%nat →
               (length b' ≤ MAX_TRACK_POINTS)%nat).
Proof.
  intros Hne. unfold recordPosition.
  assert (∀ m0 : gmap string (list TrackPoint), m0 = m →
    ∃ m', Some m0 = Some m' ∧ nonEmptyBuffers m' ∧
        (∀ id, id ≠ icao24 ac → m' !! id = m !! id) ∧
        (∀ id, is_Some (m !! id) → is_Some (m' !! id)) ∧
        (∀ b', m' !! icao24 ac = Some b' →
               grows ts (default [] (m !! icao24 ac)) b') ∧
        (∀ b', m' !! icao24 ac = Some b' →
               (length (default [] (m !! icao24 ac)) ≤ MAX_TRACK_POINTS)%nat →
               (length b' ≤ MAX_TRACK_POINTS)%nat)) as Hsame.
  { intros m0 ->. exists m. repeat split; try done.
    - intros b' ->. apply grows_refl.
    - by intros b' ->. }
  destruct (latitude ac) as [| |la]; [by apply Hsame..|].
  destruct (longitude ac) as [| |lo]; [by apply Hsame..|].
  destruct (truthy_string (icao24 ac)); [|by apply Hsame].
  destruct (m !! icao24 ac) as [buf|] eqn:Hbuf; simpl.
  - destruct (last_is_Some buf) as [lp Hlp]; [by eapply Hne|].
    rewrite Hlp. simpl.
    destruct (movedEnough lp _).
    + eexists. split; [done|]. repeat split.
      * apply map_Forall_insert_2; [apply appendCapped_nonempty | done].
      * intros id Hid. by rewrite lookup_insert_ne.
      * intros id Hs. destruct (decide (id = icao24 ac)) as [->|].
        -- rewrite lookup_insert_eq. eauto.
        -- by rewrite lookup_insert_ne.
      * intros b'. rewrite lookup_insert_eq. intros [= <-].
        apply grows_append, grows_refl.
      * intros b'. rewrite lookup_insert_eq. intros [= <-] Hlen.
        by apply appendCapped_length.
    + exists m. repeat split; try done.
      * intros b'. rewrite Hbuf. intros [= <-]. apply grows_refl.
      * intros b'. rewrite Hbuf. by intros [= <-].
  - eexists. split; [done|]. repeat split.
    + apply map_Forall_insert_2; [done | done].
    + intros id Hid. by rewrite lookup_insert_ne.
    + intros id Hs. destruct (decide (id = icao24 ac)) as [->|].
      * rewrite lookup_insert_eq. eauto.
      * by rewrite lookup_insert_ne.
    + intros b'. rewrite lookup_insert_eq. intros [= <-]. apply grows_singleton.
    + intros b'. rewrite lookup_insert_eq. intros [= <-] _.
      unfold MAX_TRACK_POINTS. simpl. lia.
Qed.

Lemma grows_trans ts b1 b2 b3 : grows ts b1 b2 → grows ts b2 b3 → grows ts b1 b3.
Proof.
  intros (k & n1 & -> & Hk & Hn1) (k2 & n2 & -> & Hk2 & Hn2).
  exists (k + k2)%nat, (n1 ++ n2). repeat split.
  - rewrite <- drop_drop. f_equal. rewrite (assoc_L (++)).
    symmetry. by apply drop_app_le.
  - rewrite !length_app, length_drop, !length_app in *. lia.
  - by apply Forall_app.
Qed.

Lemma present_cons ac data id :
  present (ac :: data) id ↔ icao24 ac = id ∨ present data id.
Proof.
  unfold present. split.
  - intros (a & Hin & Hid). apply elem_of_cons in Hin as [->|Hin]; [by left|].
    right. eauto.
  - intros [Hid|(a & Hin & Hid)].
    + exists ac. split; [left | done].
    + exists a. split; [by right | done].
Qed.

(** The first loop as a whole. *)
Lemma recordAll_spec ts data m :
  nonEmptyBuffers m →
  ∃ r, recordAll ts data m = Some r ∧ nonEmptyBuffers r ∧
       (∀ id, ¬ present data id → r !! id = m !! id) ∧
       (∀ id, is_Some (m !! id) → is_Some (r !! id)) ∧
       (∀ id b', r !! id = Some b' → grows ts (default [] (m !! id)) b') ∧
       (capped m → capped r).
Proof.
  unfold recordAll. revert m.
  induction data as [|ac data IH]; intros m Hne; simpl.
  - exists m. repeat split; try done.
    intros id b' ->. apply grows_refl.
  - destruct (recordPosition_step ts m ac Hne)
      as (m1 & -> & Hne1 & Hother & Hdom & Hgrow & Hcap).
    simpl. destruct (IH m1 Hne1) as (r & -> & Hner & Habs & Hdomr & Hgrowr & Hcapr).
    exists r. repeat split; try done.
    + intros id Hid. rewrite Habs.
      * apply Hother. intros ->. apply Hid. apply present_cons. by left.
      * intros Hp. apply Hid. apply present_cons. by right.
    + intros id Hs. by apply Hdomr, Hdom.
    + intros id b' Hb'. eapply grows_trans; [|by apply Hgrowr].
      destruct (decide (id = icao24 ac)) as [->|Hid].
      * destruct (m1 !! icao24 ac) as [b1|] eqn:E1; simpl.
        -- by apply Hgrow.
        -- destruct (m !! icao24 ac) eqn:E; [|apply grows_refl].
           destruct (Hdom (icao24 ac)) as [? Hx]; [by rewrite E|]. congruence.
      * rewrite Hother by done. apply grows_refl.
    + intros Hc. apply Hcapr. intros id b Hb.
      destruct (decide (id = icao24 ac)) as [->|Hid].
      * apply Hcap; [done|].
        destruct (m !! icao24 ac) as [b0|] eqn:E; simpl.
        -- by apply (Hc (icao24 ac)).
        -- lia.
      * rewrite Hother in Hb by done. by apply (Hc id).
Qed.

(** ** The second loop: eviction *)

Lemma cleanupOne_step maxAge ct data (m : gmap string (list TrackPoint)) k b :
  m !! k = Some b → b ≠ [] →
  ∃ m1, cleanupOne maxAge ct data m k = Some m1 ∧
        (∀ id, id ≠ k → m1 !! id = m !! id) ∧
        (present data k → m1 !! k = Some b) ∧
        (¬ present data k → m1 !! k = afterCleanup maxAge ct b).
Proof.
  intros Hb Hbne. destruct (last_is_Some b Hbne) as [lp Hlp].
  unfold cleanupOne.
  destruct (findAircraft data k) as [ac|] eqn:Hfind.
  - exists m. repeat split; [done|].
    intros Hn. exfalso. apply Hn, findAircraft_present. by rewrite Hfind.
  - apply findAircraft_None in Hfind.
    rewrite Hb. simpl. rewrite Hlp. simpl.
    unfold afterCleanup. rewrite Hlp.
    destruct (tooOld maxAge ct lp).
    + eexists. split; [done|]. repeat split.
      * intros id Hid. by rewrite lookup_delete_ne.
      * done.
      * intros _. by rewrite lookup_delete_eq.
    + eexists. split; [done|]. repeat split; done.
Qed.

Lemma cleanup_loop maxAge ct data ks (m : gmap string (list TrackPoint)) :
  NoDup ks →
  (∀ k, k ∈ ks → ∃ b, m !! k = Some b ∧ b ≠ []) →
  ∃ m', forEachM (cleanupOne maxAge ct data) ks m = Some m' ∧
        (∀ id, id ∈ ks → ¬ present data id →
               m' !! id = b ← m !! id; afterCleanup maxAge ct b) ∧
        (∀ id, id ∉ ks ∨ present data id → m' !! id = m !! id).
Proof.
  revert m. induction ks as [|k ks IH]; intros m Hnd Hks; simpl.
  - exists m. split; [done|]. split; [|done].
    intros id Hin. by apply elem_of_nil in Hin.
  - apply NoDup_cons in Hnd as [Hk Hnd].
    destruct (Hks k) as (b & Hb & Hbne); [left|].
    destruct (cleanupOne_step maxAge ct data m k b Hb Hbne)
      as (m1 & -> & Hother & Hpres & Habs).
    simpl. destruct (IH m1 Hnd) as (m' & -> & Hm'1 & Hm'2).
    { intros k' Hk'. rewrite Hother; [apply Hks; by right|].
      intros ->. done. }
    exists m'. repeat split.
    + intros id Hin Hp. apply elem_of_cons in Hin as [->|Hin].
      * rewrite Hm'2 by (by left). rewrite (Habs Hp), Hb. done.
      * rewrite (Hm'1 id Hin Hp). rewrite Hother; [done|]. by intros ->.
    + intros id Hid. destruct (decide (id = k)) as [->|Hne].
      * rewrite Hm'2 by (by left).
        destruct Hid as [Hid|Hid]; [exfalso; apply Hid; left|].
        rewrite (Hpres Hid). done.
      * rewrite Hm'2, Hother; [done..|].
        destruct Hid as [Hid|Hid]; [left|by right].
        intros Hin. apply Hid. by right.
Qed.

Lemma elem_of_keys (m : gmap string (list TrackPoint)) id :
  id ∈ keys m ↔ is_Some (m !! id).
Proof.
  unfold keys. rewrite list_elem_of_fmap. split.
  - intros ([k b] & -> & Hin). apply elem_of_map_to_list in Hin. simpl. eauto.
  - intros [b Hb]. exists (id, b). split; [done|]. by apply elem_of_map_to_list.
Qed.

(** ** One update as a whole *)

(** On a map of non-empty buffers an update never throws.  After it, the
    buffer of an identifier of the snapshot is the one the first loop
    left, and the buffer of any other identifier is the previous one,
    unless the cleanup removed it. *)
Lemma updateTracks_spec maxAge data ts now m :
  nonEmptyBuffers m →
  ∃ r m', recordAll ts data m = Some r ∧
          updateTracks maxAge data ts now m = Some m' ∧
          nonEmptyBuffers m' ∧
          (∀ id, present data id → m' !! id = r !! id) ∧
          (∀ id, ¬ present data id →
                 m' !! id = b ← m !! id; afterCleanup maxAge (now `div` 1000) b) ∧
          (∀ id b', m' !! id = Some b' → grows ts (default [] (m !! id)) b') ∧
          (capped m → capped m').
Proof.
  intros Hne. unfold updateTracks.
  destruct (recordAll_spec ts data m Hne) as (r & Hr & Hner & Habs & Hdom & Hgrow & Hcap).
  unfold recordAll in Hr. rewrite Hr. simpl.
  destruct (cleanup_loop maxAge (now `div` 1000) data (keys r) r)
    as (m' & -> & Hm'1 & Hm'2).
  { apply NoDup_fst_map_to_list. }
  { intros k Hk. apply elem_of_keys in Hk as [b Hb]. exists b. split; [done|].
    by apply (Hner k). }
  assert (∀ id b', m' !! id = Some b' → r !! id = Some b') as Hsub.
  { intros id b'. destruct (decide (id ∈ keys r)) as [Hin|Hin].
    - destruct (findAircraft data id) as [ac|] eqn:Hf.
      + rewrite Hm'2; [done|]. right. apply findAircraft_present. by rewrite Hf.
      + apply findAircraft_None in Hf. rewrite (Hm'1 id Hin Hf).
        destruct (r !! id) as [b|]; simpl; [|done]. unfold afterCleanup.
        destruct (last b) as [lp|]; [|done]. by destruct (tooOld _ _ lp).
    - rewrite Hm'2; [done | by left]. }
  exists r, m'. repeat split; try done.
  - intros id b Hb. apply (Hner id). by apply Hsub.
  - intros id Hp. apply Hm'2. by right.
  - intros id Hp. rewrite <- (Habs id Hp).
    destruct (decide (id ∈ keys r)) as [Hin|Hin].
    + by apply Hm'1.
    + rewrite Hm'2 by (by left).
      destruct (r !! id) as [b|] eqn:E; [|done].
      exfalso. apply Hin, elem_of_keys. by rewrite E.
  - intros id b' Hb'. apply Hgrow. by apply Hsub.
  - intros Hc id b Hb. apply (Hcap Hc id). by apply Hsub.
Qed.

(** ** Eviction *)

(** The buffer of an identifier that the snapshot does not contain. *)
Lemma update_absent maxAge data ts now (m : gmap string (list TrackPoint)) id b lastPoint :
  nonEmptyBuffers m →
  m !! id = Some b →
  last b = Some lastPoint →
  ¬ present data id →
  ∃ m', updateTracks maxAge data ts now m = Some m' ∧
        m' !! id = if tooOld maxAge (now `div` 1000) lastPoint then None else Some b.
Proof.
  intros Hne Hb Hlast Hp.
  destruct (updateTracks_spec maxAge data ts now m Hne)
    as (r & m' & Hr & -> & _ & _ & Habs & _ & _).
  exists m'. split; [done|].
  rewrite (Habs id Hp), Hb. simpl. unfold afterCleanup. by rewrite Hlast.
Qed.

(** The buffer of an identifier that the snapshot contains. *)
Lemma update_present maxAge data ts now (m : gmap string (list TrackPoint)) id :
  nonEmptyBuffers m →
  present data id →
  ∃ r m', recordAll ts data m = Some r ∧
          updateTracks maxAge data ts now m = Some m' ∧
          m' !! id = r !! id ∧
          (is_Some (m !! id) → is_Some (m' !! id)).
Proof.
  intros Hne Hp.
  destruct (updateTracks_spec maxAge data ts now m Hne)
    as (r & m' & Hr & -> & _ & Hpres & _ & _ & _).
  destruct (recordAll_spec ts data m Hne) as (r' & Hr' & _ & _ & Hdom & _ & _).
  rewrite Hr in Hr'. injection Hr' as <-.
  exists r, m'. repeat split; try done.
  - by apply Hpres.
  - intros Hs. rewrite (Hpres id Hp). by apply Hdom.
Qed.

(** C3.  One update removes the buffer of an identifier exactly when the
    identifier is absent from the snapshot and the age of the buffer's last
    point exceeds [2 * maxAgeMinutes] minutes, counted in seconds.  The age
    is the clock reading in whole seconds minus the time of the last point,
    which is held in milliseconds.  An absent identifier within the bound
    keeps its buffer as it was, and an identifier of the snapshot keeps a
    buffer whatever the [lastseen] of its records. *)
Theorem eviction_iff_absent_and_too_old maxAge data ts now
    (m : gmap string (list TrackPoint)) id b lastPoint :
  nonEmptyBuffers m →
  m !! id = Some b →
  last b = Some lastPoint →
  ∃ m', updateTracks maxAge data ts now m = Some m' ∧
        (m' !! id = None ↔
           ¬ present data id ∧
           (maxAge * 60 * 2 <
              inject_Z (now `div` 1000) - inject_Z (pt_time lastPoint) / 1000)%Q) ∧
        (¬ present data id →
           (inject_Z (now `div` 1000) - inject_Z (pt_time lastPoint) / 1000
              <= maxAge * 60 * 2)%Q →
           m' !! id = Some b) ∧
        (present data id → is_Some (m' !! id)).
Proof.
  intros Hne Hb Hlast.
  destruct (findAircraft data id) as [ac|] eqn:Hf.
  - assert (present data id) as Hp by (apply findAircraft_present; by rewrite Hf).
    destruct (update_present maxAge data ts now m id Hne Hp)
      as (r & m' & _ & Hm' & _ & Hkeep).
    exists m'. split; [done|].
    assert (is_Some (m' !! id)) as [x Hx] by (apply Hkeep; by rewrite Hb).
    split; [split|split].
    + rewrite Hx. done.
    + by intros [? _].
    + by intros ?.
    + intros _. rewrite Hx. eauto.
  - apply findAircraft_None in Hf.
    destruct (update_absent maxAge data ts now m id b lastPoint Hne Hb Hlast Hf)
      as (m' & Hm' & Hgone).
    exists m'. split; [done|]. rewrite Hgone. unfold tooOld, ageSeconds.
    split; [split|split].
    + intros Hnone. split; [done|].
      destruct (Qgtb _ _) eqn:E; [|done]. by apply Qgtb_true in E.
    + intros [_ Hold]. apply Qgtb_true in Hold. by rewrite Hold.
    + intros _ Hyoung. apply Qgtb_false in Hyoung. by rewrite Hyoung.
    + by intros ?.
Qed.

(** C3 at concrete maps, with a bound of 600 seconds.  The last point of
    "A" was recorded at second 1120.  A snapshot without "A" that is
    handled at second 1800, 680 seconds later, removes the buffer; the same
    snapshot handled at second 1700, 580 seconds later, leaves the buffer
    as it was; and a snapshot that holds "A" keeps a buffer for it at
    second 1800. *)
Lemma eviction_iff_absent_and_too_old_witness :
  (∃ m', updateTracks 5 [mkAircraft "B" (Num 1) (Num 2) Missing] 1800000 1800000
           {[ "A" := [mkPoint 20 10 1120000] ]} = Some m' ∧
         m' !! "A" = None) ∧
  (∃ m', updateTracks 5 [mkAircraft "B" (Num 1) (Num 2) Missing] 1700000 1700000
           {[ "A" := [mkPoint 20 10 1120000] ]} = Some m' ∧
         m' !! "A" = Some [mkPoint 20 10 1120000]) ∧
  (∃ m', updateTracks 5 [mkAircraft "A" (Num 10) (Num 20) (Num 1000)] 1800000 1800000
           {[ "A" := [mkPoint 20 10 1120000] ]} = Some m' ∧
         is_Some (m' !! "A")).
Proof.
  assert (nonEmptyBuffers ({[ "A" := [mkPoint 20 10 1120000] ]}
                             : gmap string (list TrackPoint))) as Hne.
  { apply (bool_decide_unpack _). vm_compute. reflexivity. }
  assert (({[ "A" := [mkPoint 20 10 1120000] ]} : gmap string (list TrackPoint)) !! "A"
          = Some [mkPoint 20 10 1120000]) as Hb.
  { vm_compute. reflexivity. }
  split; [|split].
  - destruct (eviction_iff_absent_and_too_old 5
                [mkAircraft "B" (Num 1) (Num 2) Missing] 1800000 1800000 _ "A"
                _ (mkPoint 20 10 1120000) Hne Hb eq_refl)
      as (m' & Hm' & Hgone & _ & _).
    exists m'. split; [exact Hm'|]. apply Hgone. split.
    + apply findAircraft_None. reflexivity.
    + vm_compute. reflexivity.
  - destruct (eviction_iff_absent_and_too_old 5
                [mkAircraft "B" (Num 1) (Num 2) Missing] 1700000 1700000 _ "A"
                _ (mkPoint 20 10 1120000) Hne Hb eq_refl)
      as (m' & Hm' & _ & Hkept & _).
    exists m'. split; [exact Hm'|]. apply Hkept.
    + apply findAircraft_None. reflexivity.
    + vm_compute. discriminate.
  - destruct (eviction_iff_absent_and_too_old 5
                [mkAircraft "A" (Num 10) (Num 20) (Num 1000)] 1800000 1800000 _ "A"
                _ (mkPoint 20 10 1120000) Hne Hb eq_refl)
      as (m' & Hm' & _ & _ & Hpresent).
    exists m'. split; [exact Hm'|]. apply Hpresent.
    apply findAircraft_present. vm_compute. eauto.
Defined.

(** ** Empty snapshots *)

(** The end-to-end scenario followed by an empty snapshot: the buffer of
    "A" is still there, with its two points, although the empty snapshot
    arrives 740 seconds after the last recorded point (and likewise at
    second 1800), beyond the bound of 600 seconds. *)
Lemma empty_snapshot_keeps_stale_buffer :
  ∃ m m1 m2,
    runArrivals 5 scenario ∅ = Some m ∧
    m !! "A" = Some [mkPoint 20 10 1000000; mkPoint (2001 # 100) (1001 # 100) 1120000] ∧
    tooOld 5 (1860000 `div` 1000) (mkPoint (2001 # 100) (1001 # 100) 1120000) = true ∧
    tooOld 5 (1800000 `div` 1000) (mkPoint (2001 # 100) (1001 # 100) 1120000) = true ∧
    runArrivals 5 (scenario ++ [mkArrival [] 1860000 1860000]) ∅ = Some m1 ∧
    runArrivals 5 (scenario ++ [mkArrival [] 1800000 1800000]) ∅ = Some m2 ∧
    m1 !! "A" = Some [mkPoint 20 10 1000000; mkPoint (2001 # 100) (1001 # 100) 1120000] ∧
    m2 !! "A" = Some [mkPoint 20 10 1000000; mkPoint (2001 # 100) (1001 # 100) 1120000].
Proof.
  do 3 eexists. repeat split; vm_compute; reflexivity.
Qed.

(** C2, amended.  A snapshot with zero entries does not reach the update:
    the effect returns the track map as it is, so nothing is evicted; a
    buffer that is too old is removed by a later non-empty snapshot that
    does not contain its identifier. *)
Theorem empty_snapshot_is_skipped maxAge ts now (m : gmap string (list TrackPoint)) :
  tracksEffect maxAge [] ts now m = Some m ∧
  ∀ data ts' now' id b lastPoint,
    data ≠ [] →
    nonEmptyBuffers m →
    m !! id = Some b →
    last b = Some lastPoint →
    ¬ present data id →
    (maxAge * 60 * 2 < ageSeconds (now' `div` 1000) lastPoint)%Q →
    ∃ m', tracksEffect maxAge data ts' now' m = Some m' ∧ m' !! id = None.
Proof.
  split; [done|].
  intros data ts' now' id b lastPoint Hdata Hne Hb Hlast Hp Hold.
  unfold tracksEffect. destruct data as [|ac data]; [done|]. simpl.
  destruct (update_absent maxAge (ac :: data) ts' now' m id b lastPoint
              Hne Hb Hlast Hp) as (m' & Hm' & Hgone).
  exists m'. split; [done|]. rewrite Hgone.
  apply Qgtb_true in Hold. unfold tooOld. by rewrite Hold.
Qed.

(** C2, amended, at a concrete map: the empty snapshot leaves the stale
    buffer of "A", the next snapshot without "A" removes it. *)
Lemma empty_snapshot_is_skipped_witness :
  tracksEffect 5 [] 1800000 1800000 {[ "A" := [mkPoint 20 10 1120000] ]}
    = Some {[ "A" := [mkPoint 20 10 1120000] ]} ∧
  ∃ m', tracksEffect 5 [mkAircraft "B" (Num 1) (Num 2) Missing] 1801000 1801000
          {[ "A" := [mkPoint 20 10 1120000] ]} = Some m' ∧
        m' !! "A" = None.
Proof.
  destruct (empty_snapshot_is_skipped 5 1800000 1800000
              {[ "A" := [mkPoint 20 10 1120000] ]}) as [Hskip Hlater].
  split; [exact Hskip|].
  apply (Hlater [mkAircraft "B" (Num 1) (Num 2) Missing] 1801000 1801000 "A"
           [mkPoint 20 10 1120000] (mkPoint 20 10 1120000)).
  - discriminate.
  - apply (bool_decide_unpack _). vm_compute. reflexivity.
  - vm_compute. reflexivity.
  - reflexivity.
  - apply findAircraft_None. reflexivity.
  - vm_compute. reflexivity.
Defined.

(** ** Snapshots of a single record *)


Lemma movedEnough_close lastPos lo la ts :
  movedEnough lastPos (mkPoint lo la ts) = false ↔ closeTo lastPos lo la.
Proof.
  unfold movedEnough, closeTo. simpl.
  rewrite orb_false_iff, !Qgtb_false. done.
Qed.

(** What the first loop does with a record that has two numeric
    coordinates and a non-empty identifier. *)
Lemma recordPosition_valid ts (m : gmap string (list TrackPoint)) id la lo ls :
  truthy_string id = true →
  recordPosition ts m (mkAircraft id (Num la) (Num lo) ls) =
    match m !! id with
    | None => Some (<[id := [mkPoint lo la ts]]> m)
    | Some buf =>
        lastPos ← last buf;
        if movedEnough lastPos (mkPoint lo la ts)
        then Some (<[id := appendCapped buf (mkPoint lo la ts)]> m)
        else Some m
    end.
Proof. intros Hid. unfold recordPosition. simpl. by rewrite Hid. Qed.


(** An update with a one-record snapshot: the buffer of the record's
    identifier is the one [recordPosition] produced. *)
Lemma update_single maxAge ts now (m : gmap string (list TrackPoint)) ac :
  nonEmptyBuffers m →
  ∃ r m', recordPosition ts m ac = Some r ∧
          updateTracks maxAge [ac] ts now m = Some m' ∧
          nonEmptyBuffers m' ∧
          m' !! icao24 ac = r !! icao24 ac.
Proof.
  intros Hne.
  assert (present [ac] (icao24 ac)) as Hp by (exists ac; split; [left | done]).
  destruct (update_present maxAge [ac] ts now m (icao24 ac) Hne Hp)
    as (r & m' & Hr & Hm' & Heq & _).
  destruct (updateTracks_spec maxAge [ac] ts now m Hne)
    as (r2 & m2 & _ & Hm2 & Hne2 & _).
  rewrite Hm' in Hm2. injection Hm2 as <-.
  exists r, m'. repeat split; try done.
  unfold recordAll in Hr. simpl in Hr.
  destruct (recordPosition ts m ac); simpl in Hr; congruence.
Qed.

(** ** Validity of coordinates *)



(** ** Sequences of arrivals *)

Lemma tracksEffect_spec maxAge data ts now (m : gmap string (list TrackPoint)) :
  nonEmptyBuffers m →
  ∃ m', tracksEffect maxAge data ts now m = Some m' ∧
        nonEmptyBuffers m' ∧
        (capped m → capped m') ∧
        (∀ id b', m' !! id = Some b' → grows ts (default [] (m !! id)) b').
Proof.
  intros Hne. unfold tracksEffect. destruct data as [|ac data]; simpl.
  - exists m. repeat split; try done. intros id b' ->. apply grows_refl.
  - destruct (updateTracks_spec maxAge (ac :: data) ts now m Hne)
      as (r & m' & _ & Hm' & Hne' & _ & _ & Hgrow & Hcap).
    exists m'. done.
Qed.

Lemma runArrivals_app maxAge l1 l2 (m : gmap string (list TrackPoint)) :
  runArrivals maxAge (l1 ++ l2) m = m' ← runArrivals maxAge l1 m; runArrivals maxAge l2 m'.
Proof. unfold runArrivals. apply forEachM_app. Qed.

Lemma runArrivals_total maxAge arrivals (m : gmap string (list TrackPoint)) :
  nonEmptyBuffers m →
  ∃ m', runArrivals maxAge arrivals m = Some m' ∧ nonEmptyBuffers m' ∧
        (capped m → capped m').
Proof.
  intros Hne. unfold runArrivals.
  apply (forEachM_invariant _ (λ s, nonEmptyBuffers s ∧ (capped m → capped s))).
  - intros s a [Hs Hc] _.
    destruct (tracksEffect_spec maxAge (ar_snapshot a) (ar_timestamp a)
                (ar_cleanupNow a) s Hs) as (s' & Hs' & Hne' & Hc' & _).
    exists s'. split; [done|]. split; [done|]. intros Hm. by apply Hc', Hc.
  - done.
Qed.

Lemma consecutive_snoc {A} (R : A → A → Prop) l x :
  consecutive R (l ++ [x]) ↔ consecutive R l ∧ ∀ y, last l = Some y → R y x.
Proof.
  induction l as [|a l IH]; simpl.
  - split; [|done]. intros _. split; [done|]. intros y. done.
  - rewrite IH. destruct l as [|b l]; simpl.
    + split.
      * intros [HR _]. repeat split; try done. by intros y [= <-].
      * intros [_ HR]. repeat split; try done. by apply HR.
    + tauto.
Qed.




(** The first sighting of an identifier starts its buffer. *)
Lemma sighting_first maxAge id s (m : gmap string (list TrackPoint)) :
  truthy_string id = true →
  nonEmptyBuffers m →
  m !! id = None →
  ∃ m', runArrivals maxAge [sightingArrival id s] m = Some m' ∧
        nonEmptyBuffers m' ∧
        m' !! id = Some [sightingPoint s].
Proof.
  intros Hid Hne Hnone.
  unfold runArrivals, sightingArrival, tracksEffect. simpl.
  destruct (update_single maxAge (s_time s) (s_cleanupNow s) m
              (mkAircraft id (Num (s_lat s)) (Num (s_lon s)) (s_lastseen s)) Hne)
    as (r & m' & Hr & -> & Hne' & Heq).
  simpl. exists m'. split; [done|]. split; [done|].
  rewrite (recordPosition_valid _ m id _ _ _ Hid), Hnone in Hr.
  injection Hr as <-. simpl in Heq. by rewrite Heq, lookup_insert_eq.
Qed.


(** ** The cap on the length of a buffer *)




(** ** Chronological order *)

Lemma StronglySorted_constant ts (news : list TrackPoint) :
  Forall (λ p, pt_time p = ts) news → StronglySorted Z.le (pt_time <$> news).
Proof.
  induction 1 as [|p news Hp Hnews IH]; simpl; constructor; [done|].
  apply Forall_fmap. eapply Forall_impl; [exact Hnews|].
  intros q Hq. simpl in *. lia.
Qed.

(** Growing a buffer at a time not before its points keeps it ordered. *)
Lemma grows_ordered ts b b' :
  StronglySorted Z.le (pt_time <$> b) →
  Forall (λ p, pt_time p ≤ ts) b →
  grows ts b b' →
  StronglySorted Z.le (pt_time <$> b') ∧ Forall (λ p, pt_time p ≤ ts) b'.
Proof.
  intros Hsorted Hbound (k & news & -> & _ & Hnews).
  assert (Forall (λ p, pt_time p ≤ ts) (b ++ news)) as Hall.
  { apply Forall_app. split; [done|].
    eapply Forall_impl; [exact Hnews|]. intros p Hp. simpl in Hp. lia. }
  split; [|by apply Forall_drop].
  assert (StronglySorted Z.le (pt_time <$> b ++ news)) as Hs.
  { rewrite fmap_app. apply StronglySorted_app_2.
    - intros t1 t2 Ht1 Ht2.
      apply list_elem_of_fmap in Ht1 as (p1 & -> & Hp1).
      apply list_elem_of_fmap in Ht2 as (p2 & -> & Hp2).
      rewrite Forall_forall in Hbound, Hnews.
      rewrite (Hnews p2 Hp2). by apply Hbound.
    - done.
    - by apply (StronglySorted_constant ts). }
  rewrite <- (take_drop k (b ++ news)), fmap_app in Hs.
  by apply StronglySorted_app_1_r in Hs.
Qed.

Lemma timedBefore_mono c c' (m : gmap string (list TrackPoint)) :
  c ≤ c' → timedBefore c m → timedBefore c' m.
Proof.
  intros Hc Hm id b Hb. destruct (Hm id b Hb) as [Hs Hf]. split; [done|].
  eapply Forall_impl; [exact Hf|]. intros p Hp. simpl in Hp. lia.
Qed.

Lemma tracksEffect_ordered maxAge data ts now c (m : gmap string (list TrackPoint)) :
  nonEmptyBuffers m →
  timedBefore c m →
  c ≤ ts →
  ∃ m', tracksEffect maxAge data ts now m = Some m' ∧
        nonEmptyBuffers m' ∧ timedBefore ts m'.
Proof.
  intros Hne Hm Hc.
  destruct (tracksEffect_spec maxAge data ts now m Hne) as (m' & Hm' & Hne' & _ & Hgrow).
  exists m'. split; [done|]. split; [done|].
  intros id b' Hb'. apply (grows_ordered ts (default [] (m !! id))).
  - destruct (m !! id) as [b|] eqn:E; simpl; [|constructor].
    by destruct (timedBefore_mono c ts m Hc Hm id b E).
  - destruct (m !! id) as [b|] eqn:E; simpl; [|constructor].
    by destruct (timedBefore_mono c ts m Hc Hm id b E).
  - by apply Hgrow.
Qed.

Lemma runArrivals_ordered maxAge arrivals c (m : gmap string (list TrackPoint)) :
  nonEmptyBuffers m →
  timedBefore c m →
  Forall (λ a, c ≤ ar_timestamp a) arrivals →
  StronglySorted Z.le (ar_timestamp <$> arrivals) →
  ∃ m' c', runArrivals maxAge arrivals m = Some m' ∧ timedBefore c' m'.
Proof.
  revert c m. induction arrivals as [|a arrivals IH]; intros c m Hne Hm Hc Hs.
  - exists m, c. done.
  - apply Forall_cons in Hc as [Hca Hc].
    rewrite fmap_cons in Hs. apply StronglySorted_cons in Hs as [Hle Hs].
    unfold runArrivals. simpl.
    destruct (tracksEffect_ordered maxAge (ar_snapshot a) (ar_timestamp a)
                (ar_cleanupNow a) c m Hne Hm Hca) as (m1 & -> & Hne1 & Hm1).
    simpl. apply (IH (ar_timestamp a) m1 Hne1 Hm1); [|done].
    rewrite Forall_fmap in Hle. exact Hle.
Qed.

(** C8.  When the clock readings of the successive updates never
    decrease, every buffer is in chronological order: no point has an
    earlier capture time than the point before it.  An update changes a
    buffer only by appending points, each stamped with the update's own
    clock reading [ts] (the record's [lastseen] is not used), and by
    dropping points from the front; the points that stay keep their
    values and their order. *)
Theorem buffers_are_chronological maxAge :
  (∀ arrivals,
      Sorted Z.le (ar_timestamp <$> arrivals) →
      ∃ m', runArrivals maxAge arrivals ∅ = Some m' ∧
            ∀ id b, m' !! id = Some b → chronological b) ∧
  (∀ data ts now (m : gmap string (list TrackPoint)),
      nonEmptyBuffers m →
      ∃ m', updateTracks maxAge data ts now m = Some m' ∧
            ∀ id b', m' !! id = Some b' →
              ∃ (k : nat) (news : list TrackPoint),
                b' = drop k (default [] (m !! id) ++ news) ∧
                Forall (λ p, pt_time p = ts) news).
Proof.
  split.
  - intros arrivals Hsorted.
    apply Sorted_StronglySorted in Hsorted; [|intros x y z; lia].
    assert (∃ c, Forall (λ a, c ≤ ar_timestamp a) arrivals) as [c Hc].
    { destruct arrivals as [|a arrivals]; [exists 0; constructor|].
      exists (ar_timestamp a). rewrite fmap_cons in Hsorted.
      apply StronglySorted_cons in Hsorted as [Hle _].
      rewrite Forall_fmap in Hle. constructor; [lia | exact Hle]. }
    destruct (runArrivals_ordered maxAge arrivals c ∅) as (m' & c' & Hm' & Hord);
      [apply map_Forall_empty | apply map_Forall_empty | done | done |].
    exists m'. split; [done|]. intros id b Hb.
    destruct (Hord id b Hb) as [Hs _]. by apply StronglySorted_Sorted.
  - intros data ts now m Hne.
    destruct (updateTracks_spec maxAge data ts now m Hne)
      as (r & m' & _ & Hm' & _ & _ & _ & Hgrow & _).
    exists m'. split; [done|]. intros id b' Hb'.
    destruct (Hgrow id b' Hb') as (k & news & Heq & _ & Hnews).
    exists k, news. done.
Qed.

(** C8 on the end-to-end scenario and on a map with one buffer. *)
Lemma buffers_are_chronological_witness :
  (∃ m', runArrivals 5 scenario ∅ = Some m' ∧
         ∀ id b, m' !! id = Some b → chronological b) ∧
  (∃ m', updateTracks 5 [mkAircraft "A" (Num 11) (Num 21) (Num 7)] 1180000 1180000
           {[ "A" := [mkPoint 20 10 1120000] ]} = Some m' ∧
         ∀ id b', m' !! id = Some b' →
           ∃ (k : nat) (news : list TrackPoint),
             b' = drop k (default [] (({[ "A" := [mkPoint 20 10 1120000] ]}
                            : gmap string (list TrackPoint)) !! id) ++ news) ∧
             Forall (λ p, pt_time p = 1180000) news).
Proof.
  destruct (buffers_are_chronological 5) as [Hrun Hstep].
  split.
  - apply Hrun. vm_compute. repeat constructor; discriminate.
  - apply Hstep. apply (bool_decide_unpack _). vm_compute. reflexivity.
Defined.

(** ** The recency filter *)

Lemma truthy_Num ls : truthy (Num ls) = false ↔ (ls == 0)%Q.
Proof.
  unfold truthy. rewrite negb_false_iff. apply Qeq_bool_iff.
Qed.

(** What the predicate of the filter decides, by the shape of [lastseen]. *)
Lemma keepAircraft_spec currentTime maxAge ac :
  keepAircraft currentTime maxAge ac = true ↔
  lastseen ac = Missing ∨ lastseen ac = Null ∨
  ∃ ls, lastseen ac = Num ls ∧
        ((ls == 0)%Q ∨ ((inject_Z currentTime - ls) / 60 <= maxAge)%Q).
Proof.
  unfold keepAircraft. destruct (lastseen ac) as [| |ls]; simpl.
  - split; [by left | done].
  - split; [right; by left | done].
  - destruct (Qeq_bool ls 0) eqn:E; simpl.
    + apply Qeq_bool_iff in E. split; [|done].
      intros _. right. right. exists ls. split; [done | by left].
    + rewrite Qle_bool_iff. split.
      * intros H. right. right. exists ls. split; [done | by right].
      * intros [H|[H|(ls' & [= <-] & [H|H])]]; try done.
        apply Qeq_bool_iff in H. congruence.
Qed.

(** A record whose [lastseen] is the number 0, 1000 seconds into the
    epoch and with a threshold of 5 minutes: the filter keeps it, although
    its [lastseen] is present and its age of 1000 seconds is past the
    threshold. *)
Lemma zero_lastseen_escapes_the_threshold :
  useFilteredAircraft [mkAircraft "A" (Num 10) (Num 20) (Num 0)] 5 1000000
    = [mkAircraft "A" (Num 10) (Num 20) (Num 0)] ∧
  lastseen (mkAircraft "A" (Num 10) (Num 20) (Num 0)) ≠ Missing ∧
  lastseen (mkAircraft "A" (Num 10) (Num 20) (Num 0)) ≠ Null ∧
  ¬ ((inject_Z (1000000 `div` 1000) - 0) / 60 <= 5)%Q.
Proof.
  repeat split; try done. vm_compute. intros H. by apply H.
Qed.

(** C6, amended.  The filter keeps a record if and only if its [lastseen]
    is absent, or is zero, or [(nowSeconds - lastseen) / 60 <=
    maxAgeMinutes].  A record with no [lastseen] is kept for every
    threshold.  The bound is inclusive: with a threshold of 5 minutes a
    record seen (at a non-zero time) exactly 300 seconds ago is kept, one
    seen 301 seconds ago is not. *)
Theorem filter_keeps_unknown_zero_or_recent :
  (∀ data maxAge now ac,
      ac ∈ useFilteredAircraft data maxAge now ↔
      ac ∈ data ∧
      (lastseen ac = Missing ∨ lastseen ac = Null ∨
       ∃ ls, lastseen ac = Num ls ∧
             ((ls == 0)%Q ∨ ((inject_Z (now `div` 1000) - ls) / 60 <= maxAge)%Q))) ∧
  (∀ data maxAge now ac,
      ac ∈ data → lastseen ac = Missing ∨ lastseen ac = Null →
      ac ∈ useFilteredAircraft data maxAge now) ∧
  (∀ data now ac ls,
      ac ∈ data → lastseen ac = Num ls → ¬ (ls == 0)%Q →
      ((inject_Z (now `div` 1000) - ls == 300)%Q →
         ac ∈ useFilteredAircraft data 5 now) ∧
      ((inject_Z (now `div` 1000) - ls == 301)%Q →
         ac ∉ useFilteredAircraft data 5 now)).
Proof.
  assert (∀ data maxAge now ac,
      ac ∈ useFilteredAircraft data maxAge now ↔
      ac ∈ data ∧ keepAircraft (now `div` 1000) maxAge ac = true) as Hin.
  { intros data maxAge now ac. unfold useFilteredAircraft.
    rewrite !list_elem_of_In. apply filter_In. }
  split; [|split].
  - intros data maxAge now ac. rewrite Hin, keepAircraft_spec. done.
  - intros data maxAge now ac Hac Hls. apply Hin. split; [done|].
    apply keepAircraft_spec. tauto.
  - intros data now ac ls Hac Hls Hnz. split.
    + intros Hage. apply Hin. split; [done|]. apply keepAircraft_spec.
      right. right. exists ls. split; [done|]. right. rewrite Hage. by vm_compute.
    + intros Hage Hkept. apply Hin in Hkept as [_ Hkept].
      apply keepAircraft_spec in Hkept
        as [Hk|[Hk|(ls' & Hk & [Hz|Hle])]]; try congruence.
      rewrite Hls in Hk. injection Hk as <-. rewrite Hage in Hle.
      by vm_compute in Hle.
Qed.

(** C6, amended, on the two records of the boundary. *)
Lemma filter_keeps_unknown_zero_or_recent_witness :
  mkAircraft "A" Null Null (Num 700)
    ∈ useFilteredAircraft [mkAircraft "A" Null Null (Num 700);
                           mkAircraft "B" Null Null (Num 699)] 5 1000000 ∧
  mkAircraft "B" Null Null (Num 699)
    ∉ useFilteredAircraft [mkAircraft "A" Null Null (Num 700);
                           mkAircraft "B" Null Null (Num 699)] 5 1000000.
Proof.
  destruct filter_keeps_unknown_zero_or_recent as (_ & _ & Hbound).
  split.
  - destruct (Hbound [mkAircraft "A" Null Null (Num 700);
                      mkAircraft "B" Null Null (Num 699)] 1000000
                (mkAircraft "A" Null Null (Num 700)) 700%Q) as [H300 _].
    + left.
    + reflexivity.
    + by vm_compute.
    + apply H300. by vm_compute.
  - destruct (Hbound [mkAircraft "A" Null Null (Num 700);
                      mkAircraft "B" Null Null (Num 699)] 1000000
                (mkAircraft "B" Null Null (Num 699)) 699%Q) as [_ H301].
    + right. left.
    + reflexivity.
    + by vm_compute.
    + apply H301. by vm_compute.
Defined.

(** C9.  A record whose [lastseen] is present and equal to 0 is kept by
    the filter for every clock reading and every threshold: it fails the
    same truthiness test as a missing [lastseen], and its age is never
    computed. *)
Theorem zero_lastseen_is_kept data maxAge now ac ls :
  ac ∈ data →
  lastseen ac = Num ls →
  (ls == 0)%Q →
  truthy (lastseen ac) = truthy Missing ∧
  keepAircraft (now `div` 1000) maxAge ac = true ∧
  ac ∈ useFilteredAircraft data maxAge now.
Proof.
  intros Hac Hls Hz.
  assert (truthy (lastseen ac) = false) as Hfalsy.
  { rewrite Hls. by apply truthy_Num. }
  assert (keepAircraft (now `div` 1000) maxAge ac = true) as Hkeep.
  { unfold keepAircraft. by rewrite Hfalsy. }
  repeat split; [done..|].
  unfold useFilteredAircraft. apply list_elem_of_In, filter_In.
  split; [by apply list_elem_of_In | done].
Qed.

(** C9 on a record last seen at time 0, with a threshold of one minute
    and a clock far from the epoch. *)
Lemma zero_lastseen_is_kept_witness :
  truthy (lastseen (mkAircraft "A" (Num 10) (Num 20) (Num 0))) = truthy Missing ∧
  keepAircraft (1700000000000 `div` 1000) 1
    (mkAircraft "A" (Num 10) (Num 20) (Num 0)) = true ∧
  mkAircraft "A" (Num 10) (Num 20) (Num 0)
    ∈ useFilteredAircraft [mkAircraft "A" (Num 10) (Num 20) (Num 0)] 1 1700000000000.
Proof.
  apply (zero_lastseen_is_kept _ 1 1700000000000 _ 0%Q).
  - left.
  - reflexivity.
  - reflexivity.
Defined.

(** ** The ingestor *)

(** C7.  A rejected fetch leaves the held aircraft list and the time of
    the last successful update as they were and stores the reason of the
    failure, which the hook returns as [error]; the track map and the
    interval timer are untouched.  The time of the last update is set by
    a successful fetch, which also replaces the list and clears the
    error. *)
Theorem fetch_failure_preserves_state maxAge now ts cleanupNow message (a : app) :
  (∃ a', tick maxAge now ts cleanupNow (Rejected message) a = Some a' ∧
         st_aircraft (app_ingestor a') = st_aircraft (app_ingestor a) ∧
         st_lastUpdate (app_ingestor a') = st_lastUpdate (app_ingestor a) ∧
         st_error (app_ingestor a') = Some message ∧
         app_tracks a' = app_tracks a ∧
         app_interval a' = app_interval a) ∧
  (∀ refreshInterval,
     ∃ a', tick maxAge now ts cleanupNow (Rejected message) (mount refreshInterval a)
             = Some a' ∧
           app_interval a' = Some (refreshInterval * 1000)%Q) ∧
  (fetchAircraft now (Rejected message) (app_ingestor a)).2 = None ∧
  (∀ data,
     (fetchAircraft now (Resolved data) (app_ingestor a)).1
       = mkIngestor data (Some now) None false).
Proof.
  split; [|split; [|done]].
  - eexists. split; [reflexivity|]. done.
  - intros refreshInterval. eexists. split; [reflexivity|]. done.
Qed.

(** ** The colour of a marker *)

Lemma Qfloor_half z : Qfloor (inject_Z z + (1 # 2)) = z.
Proof.
  pose proof (Qfloor_le (inject_Z z + (1 # 2))) as Hlo.
  pose proof (Qlt_floor (inject_Z z + (1 # 2))) as Hhi.
  assert (inject_Z (Qfloor (inject_Z z + (1 # 2))) < inject_Z (z + 1))%Q as H1.
  { rewrite inject_Z_plus. change (inject_Z 1) with 1%Q. lra. }
  assert (inject_Z z < inject_Z (Qfloor (inject_Z z + (1 # 2)) + 1))%Q as H2 by lra.
  rewrite <- Zlt_Qlt in H1, H2. lia.
Qed.



(** The clamped ratio for a positive threshold. *)
Lemma ratio_spec age maxAge :
  (0 < maxAge)%Q →
  jsmin1 (jsdiv age maxAge) =
    Finite (if Qle_bool (age / maxAge) 1 then age / maxAge else 1)%Q.
Proof.
  intros Hpos. unfold jsdiv.
  destruct (Qeq_bool maxAge 0) eqn:E.
  - apply Qeq_bool_iff in E. lra.
  - simpl. by destruct (Qle_bool (age / maxAge) 1).
Qed.

(** The colour of a non-zero timestamp under a positive threshold. *)
Lemma color_of_timestamp now maxAge ls :
  (0 < maxAge)%Q → ¬ (ls == 0)%Q →
  getAircraftColor now maxAge (Num ls) =
    let age := ((inject_Z (now `div` 1000) - ls) / 60)%Q in
    let ratio := Finite (if Qle_bool (age / maxAge) 1 then age / maxAge else 1)%Q in
    rgbText (channel 231 255 ratio) (channel 76 179 ratio) (channel 60 168 ratio).
Proof.
  intros Hpos Hnz.
  assert (truthy (Num ls) = true) as Htruthy.
  { destruct (truthy (Num ls)) eqn:E; [done|]. by apply truthy_Num in E. }
  unfold getAircraftColor. rewrite Htruthy. simpl negb. cbv iota.
  by rewrite (ratio_spec _ maxAge Hpos).
Qed.

Lemma jsround_mono x y : (x <= y)%Q → jsround x ≤ jsround y.
Proof. intros H. unfold jsround. apply Qfloor_resp_le. lra. Qed.

Lemma jsround_inject z : jsround (inject_Z z) = z.
Proof. apply Qfloor_half. Qed.

(** The value of a channel grows with the ratio and stays between the
    two ends while the ratio is between 0 and 1. *)
Lemma channel_value_bounds (from to : Z) (r r' : Q) :
  from ≤ to → (0 <= r)%Q → (r <= r')%Q → (r' <= 1)%Q →
  from ≤ jsround (inject_Z from + (inject_Z to - inject_Z from) * r) ∧
  jsround (inject_Z from + (inject_Z to - inject_Z from) * r)
    ≤ jsround (inject_Z from + (inject_Z to - inject_Z from) * r') ∧
  jsround (inject_Z from + (inject_Z to - inject_Z from) * r') ≤ to.
Proof.
  intros Hft H0 Hrr H1.
  assert (0 <= inject_Z to - inject_Z from)%Q as Hd.
  { rewrite Zle_Qle in Hft. lra. }
  split; [|split].
  - rewrite <- (jsround_inject from) at 1. apply jsround_mono. nra.
  - apply jsround_mono. nra.
  - rewrite <- (jsround_inject to) at 2. apply jsround_mono. nra.
Qed.





(** ** Invariants of the buffers along updates *)

Lemma forEachM_preserves {A S} (f : S → A → option S) (I : S → Prop) l s s' :
  (∀ s x s', x ∈ l → I s → f s x = Some s' → I s') →
  I s → forEachM f l s = Some s' → I s'.
Proof.
  revert s. induction l as [|x l IH]; intros s Hf Hs Hrun; simpl in Hrun.
  - by injection Hrun as <-.
  - destruct (f s x) as [s1|] eqn:E; simpl in Hrun; [|done].
    apply (IH s1); [|by apply (Hf s x s1); [left|..]|done].
    intros s2 y s3 Hy. apply Hf. by right.
Qed.

Lemma cleanupOne_preserves (P : string → list TrackPoint → Prop)
    maxAge ct data (m m' : gmap string (list TrackPoint)) k :
  map_Forall P m → cleanupOne maxAge ct data m k = Some m' → map_Forall P m'.
Proof.
  intros Hm. unfold cleanupOne.
  destruct (findAircraft data k); [by intros [= <-]|].
  destruct (m !! k) as [b|]; simpl; [|done].
  destruct (last b) as [lp|]; simpl; [|done].
  destruct (tooOld maxAge ct lp); intros [= <-]; [by apply map_Forall_delete | done].
Qed.

Section BufferInvariant.
(** A property of the buffers that a first point establishes and that an
    appended, sufficiently distant point keeps, for the records and
    clock readings described by [Step]. *)
Variable P : string → list TrackPoint → Prop.
Variable Step : Z → aircraft → Prop.

Hypothesis P_new : ∀ ts ac la lo,
  Step ts ac → latitude ac = Num la → longitude ac = Num lo →
  truthy_string (icao24 ac) = true →
  P (icao24 ac) [mkPoint lo la ts].

Hypothesis P_append : ∀ ts ac la lo b lastPos,
  Step ts ac → latitude ac = Num la → longitude ac = Num lo →
  truthy_string (icao24 ac) = true →
  P (icao24 ac) b → last b = Some lastPos →
  movedEnough lastPos (mkPoint lo la ts) = true →
  P (icao24 ac) (appendCapped b (mkPoint lo la ts)).

Lemma recordPosition_preserves ts (m m' : gmap string (list TrackPoint)) ac :
  Step ts ac → map_Forall P m → recordPosition ts m ac = Some m' → map_Forall P m'.
Proof.
  intros Hstep Hm. unfold recordPosition.
  destruct (latitude ac) as [| |la] eqn:Hla; try by intros [= <-].
  destruct (longitude ac) as [| |lo] eqn:Hlo; try by intros [= <-].
  destruct (truthy_string (icao24 ac)) eqn:Hid; [|by intros [= <-]].
  destruct (m !! icao24 ac) as [buf|] eqn:Hbuf; simpl.
  - destruct (last buf) as [lp|] eqn:Hlp; simpl; [|done].
    destruct (movedEnough lp _) eqn:Hmoved; intros [= <-]; [|done].
    apply map_Forall_insert_2; [|done].
    apply (P_append ts ac la lo buf lp); try done. by apply (Hm (icao24 ac)).
  - intros [= <-]. apply map_Forall_insert_2; [|done].
    by apply (P_new ts ac la lo).
Qed.

Lemma updateTracks_preserves maxAge data ts now (m m' : gmap string (list TrackPoint)) :
  (∀ ac, ac ∈ data → Step ts ac) →
  map_Forall P m → updateTracks maxAge data ts now m = Some m' → map_Forall P m'.
Proof.
  intros Hstep Hm. unfold updateTracks.
  destruct (forEachM (recordPosition ts) data m) as [r|] eqn:Hr; simpl; [|done].
  assert (map_Forall P r) as HPr.
  { apply (forEachM_preserves (recordPosition ts) (map_Forall P) data m r); [|done..].
    intros s ac s' Hac Hs Hrec.
    by apply (recordPosition_preserves ts s s' ac); [apply Hstep|..]. }
  apply (forEachM_preserves _ (map_Forall P)); [|done].
  intros s k s' _ Hs. by apply cleanupOne_preserves.
Qed.

Lemma runArrivals_preserves maxAge arrivals (m m' : gmap string (list TrackPoint)) :
  (∀ a ac, a ∈ arrivals → ac ∈ ar_snapshot a → Step (ar_timestamp a) ac) →
  map_Forall P m → runArrivals maxAge arrivals m = Some m' → map_Forall P m'.
Proof.
  intros Hstep Hm. unfold runArrivals.
  apply (forEachM_preserves _ (map_Forall P)); [|done].
  intros s a s' Ha Hs. unfold tracksEffect.
  destruct (0 <? length (ar_snapshot a))%nat; [|by intros [= <-]].
  apply updateTracks_preserves; [|done]. intros ac Hac. by apply Hstep.
Qed.
End BufferInvariant.

Lemma consecutive_drop {A} (R : A → A → Prop) k (l : list A) :
  consecutive R l → consecutive R (drop k l).
Proof.
  revert l. induction k as [|k IH]; intros l Hl; [by rewrite drop_0|].
  destruct l as [|x l]; [done|]. simpl. apply IH. by destruct Hl.
Qed.

Lemma elem_of_appendCapped buf p q :
  q ∈ appendCapped buf p → q ∈ buf ∨ q = p.
Proof.
  rewrite appendCapped_drop. intros Hq.
  apply (subseteq_drop _ (buf ++ [p])) in Hq.
  apply elem_of_app in Hq as [Hq|Hq]; [by left|].
  apply list_elem_of_singleton in Hq. by right.
Qed.

(** A record of an identified snapshot that has an identifier has an ICAO
    address. *)
Lemma identified_spec data ac :
  identified data = true → ac ∈ data → truthy_string (icao24 ac) = true →
  icaoAddress (icao24 ac) = true.
Proof.
  unfold identified. intros Hall Hac Hid.
  rewrite forallb_forall in Hall. apply list_elem_of_In in Hac.
  specialize (Hall ac Hac). rewrite Hid in Hall. done.
Qed.

(** X1.  Whatever snapshots arrive, starting from the empty map, if the
    records that have an identifier have an ICAO address, then the updates
    do not throw, and every buffer of the resulting map is non-empty, is
    kept under an ICAO address, and holds only points that were reported:
    each point has the longitude and latitude of a record with that
    identifier in one of the snapshots, and the clock reading of the
    update of that snapshot. *)
Theorem every_point_was_reported maxAge arrivals :
  forallb (λ a, identified (ar_snapshot a)) arrivals = true →
  ∃ m', runArrivals maxAge arrivals ∅ = Some m' ∧
        ∀ id b, m' !! id = Some b →
          icaoAddress id = true ∧ b ≠ [] ∧ ∀ p, p ∈ b → reportedBy arrivals id p.
Proof.
  intros Hids.
  destruct (runArrivals_total maxAge arrivals ∅) as (m' & Hm' & Hne & _);
    [apply map_Forall_empty|].
  exists m'. split; [done|].
  assert (map_Forall (λ id b, truthy_string id = true ∧
                              ∀ p, p ∈ b → reportedBy arrivals id p) m') as Hrep.
  { apply (runArrivals_preserves _
             (λ ts ac, ∃ a, a ∈ arrivals ∧ ac ∈ ar_snapshot a ∧ ts = ar_timestamp a))
      with (maxAge := maxAge) (arrivals := arrivals) (m := ∅); [| |by eauto| |done].
    - intros ts ac la lo (a & Ha & Hac & ->) Hla Hlo Hid. split; [done|].
      intros p Hp. apply list_elem_of_singleton in Hp as ->.
      exists a, ac. done.
    - intros ts ac la lo b lp (a & Ha & Hac & ->) Hla Hlo Hid [_ Hb] _ _.
      split; [done|]. intros p Hp.
      apply elem_of_appendCapped in Hp as [Hp| ->]; [by apply Hb|].
      exists a, ac. done.
    - apply map_Forall_empty. }
  intros id b Hb. destruct (Hrep id b Hb) as [Hid Hpts].
  pose proof (Hne id b Hb) as Hbne.
  split; [|split; [done|done]].
  destruct b as [|p b]; [done|].
  destruct (Hpts p) as (a & ac & Ha & Hac & <- & _); [left|].
  rewrite forallb_forall in Hids. apply list_elem_of_In in Ha.
  by apply (identified_spec (ar_snapshot a)); [apply Hids|..].
Qed.

(** X1 on two snapshots: the aircraft 4ca7b3 alone, then 4ca7b3 together
    with a record that has no identifier. *)
Lemma every_point_was_reported_witness :
  ∃ m', runArrivals 5
          [mkArrival [mkAircraft "4ca7b3" (Num 10) (Num 20) (Num 1000)] 1000000 1000000;
           mkArrival [mkAircraft "4ca7b3" (Num 11) (Num 21) (Num 1060);
                      mkAircraft "" (Num 1) (Num 2) Missing] 1060000 1060000] ∅
        = Some m' ∧
        ∀ id b, m' !! id = Some b →
          icaoAddress id = true ∧ b ≠ [] ∧
          ∀ p, p ∈ b →
            reportedBy
              [mkArrival [mkAircraft "4ca7b3" (Num 10) (Num 20) (Num 1000)] 1000000 1000000;
               mkArrival [mkAircraft "4ca7b3" (Num 11) (Num 21) (Num 1060);
                          mkAircraft "" (Num 1) (Num 2) Missing] 1060000 1060000] id p.
Proof.
  apply (every_point_was_reported 5).
  reflexivity.
Defined.

(** ** Snapshots without repeated identifiers *)

Lemma recordPosition_own ts (m m' : gmap string (list TrackPoint)) ac :
  recordPosition ts m ac = Some m' →
  m' !! icao24 ac = recordedBuffer ts ac (m !! icao24 ac) ∧
  ∀ id, id ≠ icao24 ac → m' !! id = m !! id.
Proof.
  unfold recordPosition, recordedBuffer.
  destruct (latitude ac) as [| |la]; try by intros [= <-].
  destruct (longitude ac) as [| |lo]; try by intros [= <-].
  destruct (truthy_string (icao24 ac)); [|by intros [= <-]].
  destruct (m !! icao24 ac) as [buf|] eqn:Hbuf; simpl.
  - destruct (last buf) as [lp|]; simpl; [|done].
    destruct (movedEnough lp _); intros [= <-].
    + split; [by rewrite lookup_insert_eq|].
      intros id Hid. by rewrite lookup_insert_ne.
    + done.
  - intros [= <-]. split; [by rewrite lookup_insert_eq|].
    intros id Hid. by rewrite lookup_insert_ne.
Qed.

(** With one record per identifier, the first loop treats each identifier
    of the snapshot once. *)
Lemma recordAll_NoDup ts data (m r : gmap string (list TrackPoint)) :
  nonEmptyBuffers m →
  NoDup (icao24 <$> data) →
  recordAll ts data m = Some r →
  ∀ ac, ac ∈ data → r !! icao24 ac = recordedBuffer ts ac (m !! icao24 ac).
Proof.
  revert m. induction data as [|a data IH]; intros m Hne Hnd Hr ac Hac.
  - by apply elem_of_nil in Hac.
  - rewrite fmap_cons in Hnd. apply NoDup_cons in Hnd as [Hfresh Hnd].
    unfold recordAll in Hr. simpl in Hr.
    destruct (recordPosition_step ts m a Hne) as (m1 & Hm1 & Hne1 & _).
    rewrite Hm1 in Hr. simpl in Hr.
    destruct (recordPosition_own ts m m1 a Hm1) as [Hown Hother].
    apply elem_of_cons in Hac as [->|Hac].
    + destruct (recordAll_spec ts data m1 Hne1) as (r' & Hr' & _ & Habs & _).
      unfold recordAll in Hr'. rewrite Hr in Hr'. injection Hr' as <-.
      rewrite Habs; [done|].
      intros (a' & Ha' & Heq). apply Hfresh.
      apply list_elem_of_fmap. exists a'. done.
    + rewrite (IH m1 Hne1 Hnd Hr ac Hac). rewrite Hother; [done|].
      intros Heq. apply Hfresh. apply list_elem_of_fmap. exists ac. done.
Qed.

Lemma movedEnough_same_place lo la ts ts' :
  movedEnough (mkPoint lo la ts) (mkPoint lo la ts') = false.
Proof.
  apply movedEnough_close. unfold closeTo. cbn [pt_lon pt_lat].
  assert (lo - lo == 0)%Q as Hlo by ring.
  assert (la - la == 0)%Q as Hla by ring.
  rewrite Hlo, Hla. split; by vm_compute.
Qed.

Lemma recordedBuffer_again ts ts' ac old :
  recordedBuffer ts' ac (recordedBuffer ts ac old) = recordedBuffer ts ac old.
Proof.
  unfold recordedBuffer.
  destruct (latitude ac) as [| |la]; try done.
  destruct (longitude ac) as [| |lo]; try done.
  destruct (truthy_string (icao24 ac)); [|done].
  destruct old as [buf|].
  - destruct (last buf) as [lp|] eqn:Hlp.
    + destruct (movedEnough lp (mkPoint lo la ts)) eqn:Hmoved.
      * rewrite appendCapped_last. by rewrite movedEnough_same_place.
      * rewrite Hlp.
        change (movedEnough lp (mkPoint lo la ts'))
          with (movedEnough lp (mkPoint lo la ts)).
        by rewrite Hmoved.
    + by rewrite Hlp.
  - simpl. by rewrite movedEnough_same_place.
Qed.

Lemma present_record data id :
  present data id → ∃ ac, ac ∈ data ∧ icao24 ac = id.
Proof. done. Qed.

(** X3.  When the records of a snapshot that have an identifier have an
    ICAO address, and no two records share an identifier, one update does
    not throw and changes a buffer in one of three ways only: it leaves it
    as it was, it starts it with a single point, or it appends one point
    to the previous buffer (and caps the result).  The new point has the
    coordinates of the snapshot's record for that identifier and the clock
    reading of the update. *)
Theorem one_point_per_update maxAge data ts now (m : gmap string (list TrackPoint)) :
  nonEmptyBuffers m →
  identified data = true →
  NoDup (icao24 <$> data) →
  ∃ m', updateTracks maxAge data ts now m = Some m' ∧
        ∀ id b', m' !! id = Some b' →
          m !! id = Some b' ∨
          ∃ ac la lo,
            ac ∈ data ∧ icao24 ac = id ∧
            latitude ac = Num la ∧ longitude ac = Num lo ∧
            ((m !! id = None ∧ b' = [mkPoint lo la ts]) ∨
             (∃ b, m !! id = Some b ∧ b' = appendCapped b (mkPoint lo la ts))).
Proof.
  intros Hne _ Hnd.
  destruct (updateTracks_spec maxAge data ts now m Hne)
    as (r & m' & Hr & Hm' & _ & Hpres & Habs & _ & _).
  exists m'. split; [done|]. intros id b' Hb'.
  destruct (findAircraft data id) as [ac0|] eqn:Hf.
  - apply findAircraft_Some in Hf as [Hac Hid]. subst id.
    rewrite Hpres in Hb' by (by exists ac0).
    rewrite (recordAll_NoDup ts data m r Hne Hnd Hr ac0 Hac) in Hb'.
    unfold recordedBuffer in Hb'.
    destruct (latitude ac0) as [| |la] eqn:Hla; try by left.
    destruct (longitude ac0) as [| |lo] eqn:Hlo; try by left.
    destruct (truthy_string (icao24 ac0)); [|by left].
    destruct (m !! icao24 ac0) as [buf|] eqn:Hbuf.
    + destruct (last buf) as [lp|]; [|by left].
      destruct (movedEnough lp _); [|by left].
      injection Hb' as <-. right. exists ac0, la, lo.
      repeat split; try done. right. by exists buf.
    + injection Hb' as <-. right. exists ac0, la, lo.
      repeat split; try done. by left.
  - apply findAircraft_None in Hf. rewrite (Habs id Hf) in Hb'.
    destruct (m !! id) as [b|]; simpl in Hb'; [|done].
    unfold afterCleanup in Hb'. left.
    destruct (last b) as [lp|]; [|done].
    by destruct (tooOld maxAge (now `div` 1000) lp).
Qed.

(** X3 on a snapshot of two aircraft and the map after a first sighting
    of one of them. *)
Lemma one_point_per_update_witness :
  ∃ m', updateTracks 5 [mkAircraft "4ca7b3" (Num 11) (Num 21) Missing;
                        mkAircraft "a0b1c2" (Num 1) (Num 2) Missing] 1060000 1060000
          {[ "4ca7b3" := [mkPoint 20 10 1000000] ]} = Some m' ∧
        ∀ id b', m' !! id = Some b' →
          ({[ "4ca7b3" := [mkPoint 20 10 1000000] ]} : gmap string (list TrackPoint)) !! id
            = Some b' ∨
          ∃ ac la lo,
            ac ∈ [mkAircraft "4ca7b3" (Num 11) (Num 21) Missing;
                  mkAircraft "a0b1c2" (Num 1) (Num 2) Missing] ∧ icao24 ac = id ∧
            latitude ac = Num la ∧ longitude ac = Num lo ∧
            ((({[ "4ca7b3" := [mkPoint 20 10 1000000] ]} : gmap string (list TrackPoint)) !! id
                = None ∧ b' = [mkPoint lo la 1060000]) ∨
             (∃ b, ({[ "4ca7b3" := [mkPoint 20 10 1000000] ]}
                      : gmap string (list TrackPoint)) !! id = Some b ∧
                   b' = appendCapped b (mkPoint lo la 1060000))).
Proof.
  apply one_point_per_update.
  - apply (bool_decide_unpack _). vm_compute. reflexivity.
  - reflexivity.
  - apply (bool_decide_unpack _). vm_compute. reflexivity.
Defined.

Lemma afterCleanup_Some maxAge ct b b' :
  afterCleanup maxAge ct b = Some b' → b' = b ∧ afterCleanup maxAge ct b = Some b.
Proof.
  unfold afterCleanup. destruct (last b) as [lp|]; [|by intros [= <-]].
  destruct (tooOld maxAge ct lp); [done | by intros [= <-]].
Qed.

(** X4.  Delivering a snapshot a second time adds nothing: when no two of
    its records share an identifier, a second update with the same
    snapshot, at any clock reading, leaves the buffer of every
    identifier of the snapshot exactly as the first update left it; and
    when the two updates fall in the same second, the whole map is
    unchanged. *)
Theorem redelivery_adds_nothing maxAge data ts now ts' now'
    (m m1 : gmap string (list TrackPoint)) :
  nonEmptyBuffers m →
  NoDup (icao24 <$> data) →
  updateTracks maxAge data ts now m = Some m1 →
  ∃ m2, updateTracks maxAge data ts' now' m1 = Some m2 ∧
        (∀ id, present data id → m2 !! id = m1 !! id) ∧
        (now' `div` 1000 = now `div` 1000 → m2 = m1).
Proof.
  intros Hne Hnd Hfirst.
  destruct (updateTracks_spec maxAge data ts now m Hne)
    as (r1 & m1' & Hr1 & Hm1 & Hne1 & Hpres1 & Habs1 & _ & _).
  rewrite Hfirst in Hm1. injection Hm1 as <-.
  destruct (updateTracks_spec maxAge data ts' now' m1 Hne1)
    as (r2 & m2 & Hr2 & Hm2 & _ & Hpres2 & Habs2 & _ & _).
  exists m2. split; [done|].
  assert (∀ id, present data id → m2 !! id = m1 !! id) as Hsame.
  { intros id Hp. destruct (present_record data id Hp) as (ac & Hac & <-).
    rewrite (Hpres2 _ Hp), (recordAll_NoDup ts' data m1 r2 Hne1 Hnd Hr2 ac Hac).
    rewrite (Hpres1 _ Hp), (recordAll_NoDup ts data m r1 Hne Hnd Hr1 ac Hac).
    apply recordedBuffer_again. }
  split; [done|]. intros Hsec. apply map_eq. intros id.
  destruct (findAircraft data id) as [ac|] eqn:Hf.
  - apply Hsame, findAircraft_present. by rewrite Hf.
  - apply findAircraft_None in Hf.
    rewrite (Habs2 id Hf), Hsec. rewrite (Habs1 id Hf).
    destruct (m !! id) as [b|]; simpl; [|done].
    destruct (afterCleanup maxAge (now `div` 1000) b) as [b'|] eqn:E; simpl; [|done].
    apply afterCleanup_Some in E as [-> E]. done.
Qed.

(** X4 on the first snapshot of the end-to-end scenario, delivered again
    one second later. *)
Lemma redelivery_adds_nothing_witness :
  ∃ m2, updateTracks 5 [mkAircraft "A" (Num 10) (Num 20) (Num 1000)] 1001000 1001000
          {[ "A" := [mkPoint 20 10 1000000] ]} = Some m2 ∧
        (∀ id, present [mkAircraft "A" (Num 10) (Num 20) (Num 1000)] id →
               m2 !! id = ({[ "A" := [mkPoint 20 10 1000000] ]}
                             : gmap string (list TrackPoint)) !! id) ∧
        (1001000 `div` 1000 = 1000000 `div` 1000 →
         m2 = {[ "A" := [mkPoint 20 10 1000000] ]}).
Proof.
  apply (redelivery_adds_nothing 5 [mkAircraft "A" (Num 10) (Num 20) (Num 1000)]
           1000000 1000000 1001000 1001000 ∅).
  - apply (bool_decide_unpack _). vm_compute. reflexivity.
  - apply (bool_decide_unpack _). vm_compute. reflexivity.
  - vm_compute. reflexivity.
Defined.

(** X5.  An aircraft that comes back after its buffer was removed starts
    a new history: when a non-empty snapshot without the identifier
    arrives after the bound, and then a sighting of the identifier, the
    buffer holds the point of that sighting and nothing of the old
    buffer. *)
Theorem reappearing_aircraft_starts_afresh maxAge data ts now s
    (m : gmap string (list TrackPoint)) id b lastPoint :
  truthy_string id = true →
  nonEmptyBuffers m →
  m !! id = Some b →
  last b = Some lastPoint →
  data ≠ [] →
  ¬ present data id →
  (maxAge * 60 * 2 < ageSeconds (now `div` 1000) lastPoint)%Q →
  ∃ m', runArrivals maxAge [mkArrival data ts now; sightingArrival id s] m = Some m' ∧
        m' !! id = Some [sightingPoint s].
Proof.
  intros Hid Hne Hb Hlast Hdata Hp Hold.
  change [mkArrival data ts now; sightingArrival id s]
    with ([mkArrival data ts now] ++ [sightingArrival id s]).
  rewrite runArrivals_app.
  assert (∃ m1, runArrivals maxAge [mkArrival data ts now] m = Some m1 ∧
                nonEmptyBuffers m1 ∧ m1 !! id = None) as (m1 & -> & Hne1 & Hgone).
  { unfold runArrivals, tracksEffect. simpl.
    destruct data as [|ac data]; [done|]. simpl.
    destruct (update_absent maxAge (ac :: data) ts now m id b lastPoint Hne Hb Hlast Hp)
      as (m1 & Hm1 & Hgone).
    destruct (updateTracks_spec maxAge (ac :: data) ts now m Hne)
      as (r & m1' & _ & Hm1' & Hne1 & _).
    rewrite Hm1 in Hm1'. injection Hm1' as <-. rewrite Hm1. simpl.
    exists m1. split; [done|]. split; [done|].
    rewrite Hgone. apply Qgtb_true in Hold. unfold tooOld. by rewrite Hold. }
  simpl.
  destruct (sighting_first maxAge id s m1 Hid Hne1 Hgone) as (m' & Hm' & _ & Hb').
  exists m'. done.
Qed.

(** X5 on aircraft "A", last recorded at second 1120, absent from a
    snapshot at second 1800 and seen again at second 1860. *)
Lemma reappearing_aircraft_starts_afresh_witness :
  ∃ m', runArrivals 5
          [mkArrival [mkAircraft "B" (Num 1) (Num 2) Missing] 1800000 1800000;
           sightingArrival "A" (mkSighting 30 40 Missing 1860000 1860000)]
          {[ "A" := [mkPoint 20 10 1000000; mkPoint (2001 # 100) (1001 # 100) 1120000] ]}
          = Some m' ∧
        m' !! "A" = Some [sightingPoint (mkSighting 30 40 Missing 1860000 1860000)].
Proof.
  apply (reappearing_aircraft_starts_afresh 5 _ _ _ _ _ "A"
           [mkPoint 20 10 1000000; mkPoint (2001 # 100) (1001 # 100) 1120000]
           (mkPoint (2001 # 100) (1001 # 100) 1120000)).
  - reflexivity.
  - apply (bool_decide_unpack _). vm_compute. reflexivity.
  - vm_compute. reflexivity.
  - reflexivity.
  - discriminate.
  - apply findAircraft_None. reflexivity.
  - vm_compute. reflexivity.
Defined.

(** ** More on the recency filter *)

Lemma elem_of_useFilteredAircraft data maxAge now ac :
  ac ∈ useFilteredAircraft data maxAge now ↔
  ac ∈ data ∧ keepAircraft (now `div` 1000) maxAge ac = true.
Proof.
  unfold useFilteredAircraft. rewrite !list_elem_of_In. apply filter_In.
Qed.

(** X6.  Raising the threshold never hides an aircraft, and neither does
    an earlier clock: a record that the filter keeps with threshold
    [maxAge1] at time [now2] is kept with any threshold [maxAge2 >=
    maxAge1] at any time [now1 <= now2]. *)
Theorem filter_is_monotone data maxAge1 maxAge2 now1 now2 ac :
  (maxAge1 <= maxAge2)%Q →
  now1 ≤ now2 →
  ac ∈ useFilteredAircraft data maxAge1 now2 →
  ac ∈ useFilteredAircraft data maxAge2 now1.
Proof.
  intros Hage Hnow. rewrite !elem_of_useFilteredAircraft.
  intros [Hin Hkeep]. split; [done|].
  apply keepAircraft_spec in Hkeep. apply keepAircraft_spec.
  destruct Hkeep as [H|[H|(ls & Hls & [Hz|Hle])]]; [by left | right; by left | |].
  - right. right. exists ls. split; [done | by left].
  - right. right. exists ls. split; [done|]. right.
    assert (inject_Z (now1 `div` 1000) <= inject_Z (now2 `div` 1000))%Q as Hsec.
    { rewrite <- Zle_Qle. apply Z.div_le_mono; lia. }
    apply Qle_shift_div_r; [done|].
    assert ((inject_Z (now2 `div` 1000) - ls) / 60 * 60
            == inject_Z (now2 `div` 1000) - ls)%Q as Heq by (field).
    apply (Qmult_le_r _ _ 60) in Hle; [|done]. rewrite Heq in Hle.
    apply (Qmult_le_r _ _ 60) in Hage; [|done]. lra.
Qed.

(** X6 with thresholds of 5 and 10 minutes. *)
Lemma filter_is_monotone_witness :
  mkAircraft "A" Null Null (Num 700)
    ∈ useFilteredAircraft [mkAircraft "A" Null Null (Num 700)] 10 900000.
Proof.
  apply (filter_is_monotone _ 5 10 900000 1000000).
  - by vm_compute.
  - lia.
  - vm_compute. left.
Defined.

(** ** Markers *)

Lemma truthy_spec v : truthy v = true ↔ ∃ q, v = Num q ∧ ¬ (q == 0)%Q.
Proof.
  destruct v as [| |q]; simpl.
  - split; [done | by intros (q & ? & _)].
  - split; [done | by intros (q & ? & _)].
  - rewrite negb_true_iff. split.
    + intros H. exists q. split; [done|]. intros Hz.
      apply Qeq_bool_iff in Hz. congruence.
    + intros (q' & [= <-] & Hnz). destruct (Qeq_bool q 0) eqn:E; [|done].
      by apply Qeq_bool_iff in E.
Qed.

Lemma elem_of_validAircraft data ac :
  ac ∈ validAircraft data ↔
  ac ∈ data ∧ ∃ la lo, latitude ac = Num la ∧ longitude ac = Num lo ∧
                       ¬ (la == 0)%Q ∧ ¬ (lo == 0)%Q.
Proof.
  unfold validAircraft. rewrite !list_elem_of_In, filter_In, andb_true_iff, !truthy_spec.
  split.
  - intros (Hin & (la & Hla & Hnla) & (lo & Hlo & Hnlo)). split; [done|].
    exists la, lo. done.
  - intros (Hin & la & lo & Hla & Hlo & Hnla & Hnlo). split; [done|].
    split; [exists la | exists lo]; done.
Qed.

(** X8.  A marker is drawn exactly for the records whose latitude and
    longitude are both non-zero numbers.  Every such record (with a
    non-empty identifier) is also accepted by the track recorder, but not
    the other way round: a record with latitude 0 or longitude 0 gets no
    marker, while the track recorder starts a buffer for it. *)
Theorem markers_need_nonzero_coordinates :
  (∀ data ac,
     ac ∈ validAircraft data ↔
     ac ∈ data ∧ ∃ la lo, latitude ac = Num la ∧ longitude ac = Num lo ∧
                          ¬ (la == 0)%Q ∧ ¬ (lo == 0)%Q) ∧
  (∀ data ac ts (m : gmap string (list TrackPoint)),
     ac ∈ validAircraft data →
     truthy_string (icao24 ac) = true →
     m !! icao24 ac = None →
     ∃ la lo, recordPosition ts m ac = Some (<[icao24 ac := [mkPoint lo la ts]]> m)) ∧
  (∀ data id la lo ls ts (m : gmap string (list TrackPoint)),
     (la == 0)%Q ∨ (lo == 0)%Q →
     truthy_string id = true →
     m !! id = None →
     (mkAircraft id (Num la) (Num lo) ls ∉ validAircraft data) ∧
     recordPosition ts m (mkAircraft id (Num la) (Num lo) ls)
       = Some (<[id := [mkPoint lo la ts]]> m)).
Proof.
  split; [|split].
  - apply elem_of_validAircraft.
  - intros data ac ts m Hvalid Hid Hnone.
    apply elem_of_validAircraft in Hvalid as (_ & la & lo & Hla & Hlo & _).
    exists la, lo. destruct ac as [id lat lon ls]. simpl in *. subst lat lon.
    by rewrite (recordPosition_valid ts m id la lo ls Hid), Hnone.
  - intros data id la lo ls ts m Hzero Hid Hnone. split.
    + intros Hvalid.
      apply elem_of_validAircraft in Hvalid as (_ & la' & lo' & Hla & Hlo & Hnla & Hnlo).
      simpl in Hla, Hlo. injection Hla as <-. injection Hlo as <-. tauto.
    + by rewrite (recordPosition_valid ts m id la lo ls Hid), Hnone.
Qed.

(** X8 on an aircraft over the equator. *)
Lemma markers_need_nonzero_coordinates_witness :
  (mkAircraft "A" (Num 0) (Num 12) Missing
     ∉ validAircraft [mkAircraft "A" (Num 0) (Num 12) Missing]) ∧
  recordPosition 1000000 ∅ (mkAircraft "A" (Num 0) (Num 12) Missing)
    = Some (<["A" := [mkPoint 12 0 1000000]]> ∅).
Proof.
  destruct markers_need_nonzero_coordinates as (_ & _ & Hzero).
  apply Hzero.
  - left. reflexivity.
  - reflexivity.
  - reflexivity.
Defined.

(** ** Callsigns and marker titles *)

Lemma append_nil_l (s : string) : "" +:+ s = s.
Proof. reflexivity. Qed.

Lemma append_cons c (s t : string) : String c s +:+ t = String c (s +:+ t).
Proof. reflexivity. Qed.

Lemma append_empty_r (s : string) : s +:+ "" = s.
Proof.
  induction s as [|c s IH]; [done|]. by rewrite append_cons, IH.
Qed.

Lemma strip_again s :
  stripTrailingUnderscores (stripTrailingUnderscores s) = stripTrailingUnderscores s.
Proof.
  induction s as [|c s IH]; [done|].
  cbn [stripTrailingUnderscores].
  destruct (Ascii.eqb c "_" && String.eqb (stripTrailingUnderscores s) "") eqn:E; [done|].
  cbn [stripTrailingUnderscores]. by rewrite IH, E.
Qed.

Lemma strip_decompose s :
  ∃ n, s = stripTrailingUnderscores s +:+ underscores n.
Proof.
  induction s as [|c s [n Hn]]; [by exists 0%nat|].
  cbn [stripTrailingUnderscores].
  destruct (Ascii.eqb c "_" && String.eqb (stripTrailingUnderscores s) "") eqn:E.
  - apply andb_true_iff in E as [Hc Hr].
    apply Ascii.eqb_eq in Hc. apply String.eqb_eq in Hr.
    exists (S n). rewrite Hr, append_nil_l in Hn.
    rewrite append_nil_l. cbn [underscores]. by rewrite Hc, <- Hn.
  - exists n. rewrite append_cons. by rewrite <- Hn.
Qed.

Lemma strip_no_trailing s t : stripTrailingUnderscores s ≠ t +:+ "_".
Proof.
  revert t. induction s as [|c s IH]; intros t.
  - destruct t; [rewrite append_nil_l | rewrite append_cons]; done.
  - cbn [stripTrailingUnderscores].
    destruct (Ascii.eqb c "_" && String.eqb (stripTrailingUnderscores s) "") eqn:E.
    + destruct t; [rewrite append_nil_l | rewrite append_cons]; done.
    + destruct t as [|c' t].
      * rewrite append_nil_l. intros [= Hc Hr]. rewrite Hc, Hr in E. done.
      * rewrite append_cons. intros [= _ Hr]. by apply (IH t).
Qed.

Lemma cleanCallsign_truthy callsign : truthy_string (cleanCallsign callsign) = true.
Proof.
  destruct callsign as [s|]; [|done]. simpl.
  by destruct (truthy_string (stripTrailingUnderscores s)) eqn:E.
Qed.

(** X10.  A cleaned callsign is never empty and never ends with an
    underscore, and cleaning it again changes nothing.  It is the callsign
    without the underscores at its end; a callsign that is missing, empty
    or made of underscores only is shown as "Unknown". *)
Theorem cleanCallsign_strips_the_padding :
  (∀ callsign,
     cleanCallsign callsign ≠ "" ∧
     (∀ t, cleanCallsign callsign ≠ t +:+ "_") ∧
     cleanCallsign (Some (cleanCallsign callsign)) = cleanCallsign callsign) ∧
  cleanCallsign None = "Unknown" ∧
  (∀ s, (∃ n, s = underscores n ∧ cleanCallsign (Some s) = "Unknown") ∨
        (∃ n, s = cleanCallsign (Some s) +:+ underscores n)).
Proof.
  split; [|split; [done|]].
  - intros callsign. split; [|split].
    + pose proof (cleanCallsign_truthy callsign) as H.
      intros Heq. by rewrite Heq in H.
    + intros t. destruct callsign as [s|]; simpl.
      * destruct (truthy_string (stripTrailingUnderscores s)).
        -- apply strip_no_trailing.
        -- apply (strip_no_trailing "Unknown").
      * apply (strip_no_trailing "Unknown").
    + destruct callsign as [s|]; [|done]. simpl.
      destruct (truthy_string (stripTrailingUnderscores s)) eqn:E; [|done].
      by rewrite strip_again, E.
  - intros s. destruct (strip_decompose s) as [n Hn]. simpl.
    destruct (truthy_string (stripTrailingUnderscores s)) eqn:E.
    + right. by exists n.
    + left. exists n. split; [|done].
      unfold truthy_string in E. apply negb_false_iff, String.eqb_eq in E.
      by rewrite E in Hn.
Qed.

(** X11.  The title of a marker is the cleaned callsign, followed by the
    registration in parentheses when there is one, followed by a dash and
    the type code when there is one, separated by single spaces.  It never
    shows the ICAO address: the fallback to [icao24] cannot be reached,
    since a cleaned callsign is never empty. *)
Theorem markerTitle_never_shows_the_address callsign icao24 registration typecode :
  markerTitle callsign icao24 registration typecode =
    cleanCallsign callsign
    +:+ match registration with
        | Some r => if truthy_string r then " (" +:+ r +:+ ")" else ""
        | None => ""
        end
    +:+ match typecode with
        | Some t => if truthy_string t then " - " +:+ t else ""
        | None => ""
        end ∧
  ∀ other, markerTitle callsign other registration typecode
           = markerTitle callsign icao24 registration typecode.
Proof.
  assert (∀ id, markerTitle callsign id registration typecode =
    cleanCallsign callsign
    +:+ match registration with
        | Some r => if truthy_string r then " (" +:+ r +:+ ")" else ""
        | None => ""
        end
    +:+ match typecode with
        | Some t => if truthy_string t then " - " +:+ t else ""
        | None => ""
        end) as Hshape.
  { intros id. unfold markerTitle, filterBoolean.
    rewrite (cleanCallsign_truthy callsign).
    cbn [omap list_omap]. rewrite (cleanCallsign_truthy callsign).
    destruct registration as [r|]; [destruct (truthy_string r)|];
      (destruct typecode as [t|]; [destruct (truthy_string t)|]);
      rewrite ?append_cons, ?append_nil_l, ?append_empty_r; reflexivity. }
  split; [apply Hshape|]. intros other. by rewrite !Hshape.
Qed.

(** ** GeoJSON of the tracks *)

Lemma push_lines_omap (l : list (string * list TrackPoint)) (acc : list lineFeature) :
  fold_left
    (λ features entry,
       let '(icao24, points) := entry in
       if (2 <=? length points)%nat
       then features ++ [mkLine icao24 ((λ p, (pt_lon p, pt_lat p)) <$> points)]
       else features) l acc
  = acc ++ omap (λ entry : string * list TrackPoint,
                   if (2 <=? length entry.2)%nat
                   then Some (mkLine entry.1 ((λ p, (pt_lon p, pt_lat p)) <$> entry.2))
                   else None) l.
Proof.
  revert acc. induction l as [|[id pts] l IH]; intros acc.
  - simpl. by rewrite app_nil_r.
  - destruct pts as [|p1 [|p2 pts]]; simpl; rewrite IH; try done.
    by rewrite <- (assoc_L (++)).
Qed.

Lemma tracksGeoJSON_omap (tracks : gmap string (list TrackPoint)) :
  tracksGeoJSON tracks =
    omap (λ entry : string * list TrackPoint,
            if (2 <=? length entry.2)%nat
            then Some (mkLine entry.1 ((λ p, (pt_lon p, pt_lat p)) <$> entry.2))
            else None)
         (map_to_list tracks).
Proof. unfold tracksGeoJSON. by rewrite push_lines_omap. Qed.

Lemma omap_keys_sublist (l : list (string * list TrackPoint)) :
  lf_icao24 <$> omap (λ entry : string * list TrackPoint,
                        if (2 <=? length entry.2)%nat
                        then Some (mkLine entry.1 ((λ p, (pt_lon p, pt_lat p)) <$> entry.2))
                        else None) l
    `sublist_of` l.*1.
Proof.
  induction l as [|[id pts] l IH]; [done|].
  destruct pts as [|p1 [|p2 pts]]; simpl.
  - by apply sublist_cons.
  - by apply sublist_cons.
  - by apply sublist_skip.
Qed.

(** X12.  The tracks layer holds one line per buffer of at least two
    points and nothing else: a feature is in the collection exactly when
    its identifier has a buffer of two or more points and its coordinates
    are the longitude and latitude of the points of that buffer, in the
    buffer's order.  No identifier has two lines, and a buffer of a single
    point gives no line. *)
Theorem tracksGeoJSON_draws_each_history_once (tracks : gmap string (list TrackPoint)) :
  (∀ f, f ∈ tracksGeoJSON tracks ↔
        ∃ b, tracks !! lf_icao24 f = Some b ∧ (2 ≤ length b)%nat ∧
             lf_coordinates f = (λ p, (pt_lon p, pt_lat p)) <$> b) ∧
  NoDup (lf_icao24 <$> tracksGeoJSON tracks) ∧
  (∀ f, f ∈ tracksGeoJSON tracks → (2 ≤ length (lf_coordinates f))%nat).
Proof.
  assert (∀ f, f ∈ tracksGeoJSON tracks ↔
        ∃ b, tracks !! lf_icao24 f = Some b ∧ (2 ≤ length b)%nat ∧
             lf_coordinates f = (λ p, (pt_lon p, pt_lat p)) <$> b) as Hin.
  { intros f. rewrite tracksGeoJSON_omap, list_elem_of_omap. split.
    - intros ([id b] & Hentry & Hf). apply elem_of_map_to_list in Hentry.
      cbn [fst snd] in Hf. destruct (Nat.leb_spec 2 (length b)); [|done].
      injection Hf as <-. exists b. done.
    - intros (b & Hb & Hlen & Hcoords). exists (lf_icao24 f, b).
      split; [by apply elem_of_map_to_list|]. cbn [fst snd].
      destruct (Nat.leb_spec 2 (length b)); [|lia].
      destruct f as [id coords]. cbn [lf_icao24 lf_coordinates] in *.
      by rewrite Hcoords. }
  split; [done|]. split.
  - rewrite tracksGeoJSON_omap.
    apply (sublist_NoDup _ ((map_to_list tracks).*1));
      [apply NoDup_fst_map_to_list | apply omap_keys_sublist].
  - intros f Hf. apply Hin in Hf as (b & _ & Hlen & ->). by rewrite length_fmap.
Qed.

(** X13.  Whatever snapshots arrive, starting from the empty map, every
    line of the tracks layer has at least 2 and at most [MAX_TRACK_POINTS]
    vertices. *)
Theorem track_lines_have_2_to_500_vertices maxAge arrivals :
  ∃ m', runArrivals maxAge arrivals ∅ = Some m' ∧
        ∀ f, f ∈ tracksGeoJSON m' →
             (2 ≤ length (lf_coordinates f) ≤ MAX_TRACK_POINTS)%nat.
Proof.
  destruct (runArrivals_total maxAge arrivals ∅) as (m' & Hm' & _ & Hcap);
    [apply map_Forall_empty|].
  exists m'. split; [done|]. intros f.
  rewrite tracksGeoJSON_omap, list_elem_of_omap.
  intros ([id b] & Hentry & Hf). apply elem_of_map_to_list in Hentry.
  cbn [fst snd] in Hf. destruct (Nat.leb_spec 2 (length b)); [|done].
  injection Hf as <-. cbn [lf_coordinates]. rewrite length_fmap. split; [done|].
  apply (Hcap (map_Forall_empty _) id b Hentry).
Qed.

(** ** GeoJSON of the selected aircraft's track *)

Lemma selectedTrackPoints_filter {T} (track : list (position T)) sel :
  selectedTrackPoints (Some track) sel =
    imap (λ index pos,
            mkSelectedPoint sel (pos_timestamp pos) index
                            (pos_longitude pos, pos_latitude pos))
         (List.filter hasCoordinates track).
Proof. unfold selectedTrackPoints. by destruct track. Qed.

Lemma selectedTrackLine_filter {T} (track : list (position T)) sel :
  selectedTrackLine (Some track) sel =
    if (length (List.filter hasCoordinates track) <? 2)%nat then []
    else [mkSelectedLine sel
            ((λ pos, (pos_longitude pos, pos_latitude pos))
               <$> List.filter hasCoordinates track)].
Proof.
  unfold selectedTrackLine. rewrite length_fmap.
  pose proof (filter_length_le hasCoordinates track) as Hle.
  destruct (Nat.ltb_spec (length track) 2); [|done].
  destruct (Nat.ltb_spec (length (List.filter hasCoordinates track)) 2); [done|lia].
Qed.

(** X14.  The line and the dots of the selected aircraft's track agree.
    There is at most one line; it is drawn exactly when at least two
    positions have a longitude and a latitude other than [null]; its
    vertices are the coordinates of the dots, in the same order, and none
    of them holds [null].  The dots are numbered 0, 1, 2, ... without
    gaps, counting only the positions that are drawn. *)
Theorem selected_line_and_dots_agree {T} (track : option (list (position T))) sel :
  (length (selectedTrackLine track sel) ≤ 1)%nat ∧
  (selectedTrackLine track sel = [] ↔
     (length (selectedTrackPoints track sel) < 2)%nat) ∧
  (∀ f, f ∈ selectedTrackLine track sel →
        sl_icao24 f = sel ∧
        (2 ≤ length (sl_coordinates f))%nat ∧
        sl_coordinates f = sp_coordinates <$> selectedTrackPoints track sel ∧
        ∀ c, c ∈ sl_coordinates f → c.1 ≠ Null ∧ c.2 ≠ Null) ∧
  sp_index <$> selectedTrackPoints track sel
    = seq 0 (length (selectedTrackPoints track sel)).
Proof.
  destruct track as [track|].
  2:{ cbn. split; [lia|]. split; [split; [intros _; lia | done]|].
      split; [|done]. intros f Hf. by apply elem_of_nil in Hf. }
  rewrite selectedTrackPoints_filter, selectedTrackLine_filter, length_imap.
  set (fl := List.filter hasCoordinates track).
  assert (sp_coordinates <$> imap (λ index pos,
            mkSelectedPoint sel (pos_timestamp pos) index
                            (pos_longitude pos, pos_latitude pos)) fl
          = (λ pos, (pos_longitude pos, pos_latitude pos)) <$> fl) as Hcoords.
  { rewrite fmap_imap. apply imap_const. }
  split; [|split; [|split]].
  - destruct (length fl <? 2)%nat; simpl; lia.
  - destruct (Nat.ltb_spec (length fl) 2); split; try done. lia.
  - intros f Hf. destruct (Nat.ltb_spec (length fl) 2); [by apply elem_of_nil in Hf|].
    apply list_elem_of_singleton in Hf as ->. simpl.
    split; [done|]. split; [by rewrite length_fmap|]. split; [done|].
    intros c Hc. apply list_elem_of_fmap in Hc as (pos & -> & Hpos).
    apply list_elem_of_In, filter_In in Hpos as [_ Hpos].
    unfold hasCoordinates in Hpos. apply andb_true_iff in Hpos as [H1 H2]. simpl.
    split; intros Heq; [rewrite Heq in H1 | rewrite Heq in H2]; done.
  - rewrite fmap_imap.
    rewrite (imap_ext _ (λ index _, index)); [|done].
    by rewrite imap_seq_0, list_fmap_id.
Qed.

(** X14 on a track of three positions, one of them without longitude. *)
Lemma selected_line_and_dots_agree_witness :
  sl_icao24 (mkSelectedLine (Some "A") [(Num 1, Num 2); (Num 3, Num 0)]) = Some "A" ∧
  (2 ≤ length (sl_coordinates
                 (mkSelectedLine (Some "A") [(Num 1, Num 2); (Num 3, Num 0)])))%nat ∧
  sl_coordinates (mkSelectedLine (Some "A") [(Num 1, Num 2); (Num 3, Num 0)])
    = sp_coordinates <$>
        selectedTrackPoints
          (Some [mkPosition (Num 1) (Num 2) 5; mkPosition Null (Num 2) 6;
                 mkPosition (Num 3) (Num 0) 7]) (Some "A") ∧
  ∀ c, c ∈ sl_coordinates (mkSelectedLine (Some "A") [(Num 1, Num 2); (Num 3, Num 0)]) →
       c.1 ≠ Null ∧ c.2 ≠ Null.
Proof.
  destruct (selected_line_and_dots_agree
              (Some [mkPosition (Num 1) (Num 2) 5; mkPosition Null (Num 2) 6;
                     mkPosition (Num 3) (Num 0) 7]) (Some "A")) as (_ & _ & Hline & _).
  apply Hline. vm_compute. left.
Defined.

(** ** Sequences of fetches *)

Lemma runFetches_snoc fetches f st :
  runFetches (fetches ++ [f]) st = (fetchAircraft f.1 f.2 (runFetches fetches st)).1.
Proof. unfold runFetches. by rewrite fold_left_app. Qed.

Lemma runFetches_app fs1 fs2 st :
  runFetches (fs1 ++ fs2) st = runFetches fs2 (runFetches fs1 st).
Proof. unfold runFetches. by rewrite fold_left_app. Qed.

Lemma runFetches_failed fetches st :
  Forall failed fetches →
  st_aircraft (runFetches fetches st) = st_aircraft st ∧
  st_lastUpdate (runFetches fetches st) = st_lastUpdate st ∧
  st_error (runFetches fetches st)
    = match last fetches with
      | Some (_, Rejected message) => Some message
      | _ => st_error st
      end.
Proof.
  induction fetches as [|f fetches IH] using rev_ind; intros Hall; [done|].
  apply Forall_app in Hall as [Hall Hf]. apply Forall_singleton in Hf as [message Hf].
  destruct (IH Hall) as (Ha & Hu & _).
  rewrite runFetches_snoc, last_snoc. destruct f as [now res]. simpl in *. subst res.
  simpl. done.
Qed.

(** X15.  The ingestor holds the list of the most recent successful
    fetch, however many failures came after it: after a success at time
    [now] followed by failures only, the list is the fetched one, the
    time of the last update is [now], and the error is the reason of the
    last failure (none if no failure followed).  With failures only, the
    list and the time of the last update are those held before. *)
Theorem held_list_is_the_last_success :
  (∀ before now data after st,
     Forall failed after →
     st_aircraft (runFetches (before ++ (now, Resolved data) :: after) st) = data ∧
     st_lastUpdate (runFetches (before ++ (now, Resolved data) :: after) st) = Some now ∧
     st_error (runFetches (before ++ (now, Resolved data) :: after) st)
       = match last after with
         | Some (_, Rejected message) => Some message
         | _ => None
         end) ∧
  (∀ fetches st,
     Forall failed fetches →
     st_aircraft (runFetches fetches st) = st_aircraft st ∧
     st_lastUpdate (runFetches fetches st) = st_lastUpdate st).
Proof.
  split.
  - intros before now data after st Hall.
    change ((now, Resolved data) :: after) with ([(now, Resolved data)] ++ after).
    rewrite !runFetches_app.
    destruct (runFetches_failed after
                (runFetches [(now, Resolved data)] (runFetches before st)) Hall)
      as (Ha & Hu & He).
    rewrite Ha, Hu, He. done.
  - intros fetches st Hall.
    destruct (runFetches_failed fetches st Hall) as (Ha & Hu & _). done.
Qed.

(** X15 on a success followed by two failures. *)
Lemma held_list_is_the_last_success_witness :
  st_aircraft (runFetches ([] ++ (1000, Resolved [mkAircraft "A" Null Null Missing])
                              :: [(2000, Rejected "HTTP error! status: 500");
                                  (3000, Rejected "Failed to fetch")]) initialIngestor)
    = [mkAircraft "A" Null Null Missing] ∧
  st_lastUpdate (runFetches ([] ++ (1000, Resolved [mkAircraft "A" Null Null Missing])
                                :: [(2000, Rejected "HTTP error! status: 500");
                                    (3000, Rejected "Failed to fetch")]) initialIngestor)
    = Some 1000 ∧
  st_error (runFetches ([] ++ (1000, Resolved [mkAircraft "A" Null Null Missing])
                           :: [(2000, Rejected "HTTP error! status: 500");
                               (3000, Rejected "Failed to fetch")]) initialIngestor)
    = match last [(2000, Rejected "HTTP error! status: 500");
                  (3000, Rejected "Failed to fetch")] with
      | Some (_, Rejected message) => Some message
      | _ => None
      end.
Proof.
  destruct held_list_is_the_last_success as [Hlast _].
  apply Hlast. repeat constructor; eexists; reflexivity.
Defined.

(** ** The theme and the style of the map *)

(** X16.  A preference saved with [setTheme] is the one read at the next
    start, except the empty string, which reads as "auto".  With that
    preference the map gets the dark style exactly when the preference is
    "dark", or is "auto" (or empty) while the system prefers dark; every
    other saved string gives the light style. *)
Theorem saved_theme_decides_the_map_style p storage systemDark :
  initialPreference (setTheme p storage).2 = (if String.eqb p "" then "auto" else p) ∧
  (mapStyle (appliedTheme (initialPreference (setTheme p storage).2) systemDark)
     = MAP_STYLE_DARK ↔
   p = "dark" ∨ ((p = "auto" ∨ p = "") ∧ systemDark = true)) ∧
  (mapStyle (appliedTheme (initialPreference (setTheme p storage).2) systemDark)
     = MAP_STYLE_DARK ∨
   mapStyle (appliedTheme (initialPreference (setTheme p storage).2) systemDark)
     = MAP_STYLE_LIGHT).
Proof.
  assert (initialPreference (setTheme p storage).2 = (if String.eqb p "" then "auto" else p))
    as Hread.
  { unfold initialPreference, setTheme. simpl. rewrite lookup_insert_eq.
    unfold truthy_string. by destruct (String.eqb p ""). }
  split; [done|]. rewrite Hread. unfold mapStyle, appliedTheme.
  destruct (String.eqb_spec p "") as [->|Hempty]; simpl.
  - destruct systemDark; simpl; split; try (by right); try (by left).
    + split; [intros _; right; split; [by right|done] | done].
    + split; [done|]. intros [?|[_ ?]]; done.
  - destruct (String.eqb_spec p "auto") as [->|Hauto].
    + destruct systemDark; simpl; split; try (by right); try (by left).
      * split; [intros _; right; split; [by left|done] | done].
      * split; [done|]. intros [?|[_ ?]]; done.
    + destruct (String.eqb_spec p "dark") as [->|Hdark]; split; try (by right); try (by left).
      * split; [by left | done].
      * split; [done|]. intros [?|[[?|?] _]]; done.
Qed.

(** ** The range of the colour *)

Lemma Qdiv_le_mono (a b c : Q) : (0 < c)%Q → (a <= b)%Q → (a / c <= b / c)%Q.
Proof.
  intros Hc Hab. unfold Qdiv. apply Qmult_le_compat_r; [done|].
  apply Qinv_le_0_compat. lra.
Qed.

Lemma clamp_bounds (a b : Q) :
  (0 <= a)%Q → (a <= b)%Q →
  (0 <= (if Qle_bool a 1 then a else 1) ∧
   (if Qle_bool a 1 then a else 1) <= (if Qle_bool b 1 then b else 1) ∧
   (if Qle_bool b 1 then b else 1) <= 1)%Q.
Proof.
  intros H0 Hab.
  destruct (Qle_bool a 1) eqn:Ea; destruct (Qle_bool b 1) eqn:Eb;
    try apply Qle_bool_iff in Ea; try apply Qle_bool_iff in Eb;
    repeat split; try lra.
  exfalso. assert (Qle_bool a 1 = true); [|congruence].
  apply Qle_bool_iff. lra.
Qed.

(** X17.  For timestamps that are not in the future, the colour is a
    valid one and fades with age: with a positive threshold, the red,
    green and blue values printed for a non-zero timestamp lie between the
    fresh end (231, 76, 60) and the stale end (255, 179, 168), and an
    aircraft seen earlier never gets a smaller value in any channel than
    one seen later. *)
Theorem colour_fades_within_its_ends now maxAge older newer :
  (0 < maxAge)%Q →
  ¬ (older == 0)%Q →
  ¬ (newer == 0)%Q →
  (older <= newer)%Q →
  (newer <= inject_Z (now `div` 1000))%Q →
  ∃ r1 g1 b1 r2 g2 b2,
    getAircraftColor now maxAge (Num older) = rgbText (showZ r1) (showZ g1) (showZ b1) ∧
    getAircraftColor now maxAge (Num newer) = rgbText (showZ r2) (showZ g2) (showZ b2) ∧
    231 ≤ r2 ≤ r1 ∧ r1 ≤ 255 ∧
    76 ≤ g2 ≤ g1 ∧ g1 ≤ 179 ∧
    60 ≤ b2 ≤ b1 ∧ b1 ≤ 168.
Proof.
  intros Hpos Hno Hnn Hle Hpast.
  rewrite (color_of_timestamp now maxAge older Hpos Hno).
  rewrite (color_of_timestamp now maxAge newer Hpos Hnn).
  cbv zeta.
  set (a1 := ((inject_Z (now `div` 1000) - older) / 60 / maxAge)%Q).
  set (a2 := ((inject_Z (now `div` 1000) - newer) / 60 / maxAge)%Q).
  assert (0 <= a2 ∧ a2 <= a1)%Q as [H0 H21].
  { subst a1 a2. split.
    - apply Qle_shift_div_l; [done|]. apply Qle_shift_div_l; [done|]. lra.
    - apply Qdiv_le_mono; [done|]. apply Qdiv_le_mono; [done|]. lra. }
  destruct (clamp_bounds a2 a1 H0 H21) as (Hc0 & Hc21 & Hc1).
  unfold channel.
  destruct (channel_value_bounds 231 255 _ _ ltac:(lia) Hc0 Hc21 Hc1) as (Hr1 & Hr2 & Hr3).
  destruct (channel_value_bounds 76 179 _ _ ltac:(lia) Hc0 Hc21 Hc1) as (Hg1 & Hg2 & Hg3).
  destruct (channel_value_bounds 60 168 _ _ ltac:(lia) Hc0 Hc21 Hc1) as (Hb1 & Hb2 & Hb3).
  do 6 eexists. split; [reflexivity|]. split; [reflexivity|]. lia.
Qed.

(** X17 for two aircraft last seen 150 and 60 seconds before the clock
    reading. *)
Lemma colour_fades_within_its_ends_witness :
  ∃ r1 g1 b1 r2 g2 b2,
    getAircraftColor 1000000 5 (Num 850) = rgbText (showZ r1) (showZ g1) (showZ b1) ∧
    getAircraftColor 1000000 5 (Num 940) = rgbText (showZ r2) (showZ g2) (showZ b2) ∧
    231 ≤ r2 ≤ r1 ∧ r1 ≤ 255 ∧
    76 ≤ g2 ≤ g1 ∧ g1 ≤ 179 ∧
    60 ≤ b2 ≤ b1 ∧ b1 ≤ 168.
Proof.
  apply (colour_fades_within_its_ends 1000000 5 850%Q 940%Q).
  - reflexivity.
  - by vm_compute.
  - by vm_compute.
  - by vm_compute.
  - by vm_compute.
Defined.

(** ** The track recorder on binary64 numbers *)

Import Doubles.
Import PrimFloat.
Set Warnings "-inexact-float".

Lemma findAircraft_Some_f64 data id ac :
  findAircraft data id = Some ac → ac ∈ data ∧ icao24 ac = id.
Proof.
  unfold findAircraft. intros H. apply find_some in H as [Hin Heq].
  split; [by apply list_elem_of_In | by apply String.eqb_eq].
Qed.

Lemma findAircraft_None_f64 data id :
  findAircraft data id = None ↔ ¬ present data id.
Proof.
  unfold findAircraft, present. split.
  - intros H (ac & Hin & Heq).
    apply list_elem_of_In in Hin.
    pose proof (find_none _ _ H ac Hin) as Hn. simpl in Hn.
    apply String.eqb_neq in Hn. done.
  - intros H. destruct (find _ data) as [ac|] eqn:E; [|done].
    destruct (findAircraft_Some_f64 data id ac E) as [Hin Heq].
    exfalso. apply H. eauto.
Qed.

Lemma findAircraft_present_f64 data id :
  present data id ↔ is_Some (findAircraft data id).
Proof.
  split.
  - intros Hp. destruct (findAircraft data id) eqn:E; [eauto|].
    by apply findAircraft_None_f64 in E.
  - intros [ac Hac]. apply findAircraft_Some_f64 in Hac. exists ac. done.
Qed.

Lemma appendCapped_drop_f64 buf p :
  appendCapped buf p = drop (length (buf ++ [p]) - MAX_TRACK_POINTS)%nat (buf ++ [p]).
Proof.
  unfold appendCapped, slice_last.
  destruct (Nat.ltb_spec MAX_TRACK_POINTS (length (buf ++ [p]))); [done|].
  replace (length (buf ++ [p]) - MAX_TRACK_POINTS)%nat with 0%nat by lia. done.
Qed.

Lemma appendCapped_last_f64 buf p : last (appendCapped buf p) = Some p.
Proof.
  rewrite appendCapped_drop_f64.
  rewrite length_app. simpl.
  assert (length buf + 1 - MAX_TRACK_POINTS ≤ length buf)%nat as Hk
    by (unfold MAX_TRACK_POINTS; lia).
  rewrite drop_app_le by done.
  apply last_snoc.
Qed.

Lemma appendCapped_nonempty_f64 buf p : appendCapped buf p ≠ [].
Proof.
  intros H. pose proof (appendCapped_last_f64 buf p) as HL. rewrite H in HL. done.
Qed.

(** The test of line 192 in terms of the two axes. *)
Lemma movedEnough_far_f64 lastPos lo la ts :
  movedEnough lastPos (mkPoint lo la ts) = true ↔ farFrom lastPos lo la.
Proof. unfold movedEnough, farFrom, exceeds. simpl. by rewrite orb_true_iff. Qed.

Lemma movedEnough_close_f64 lastPos lo la ts :
  movedEnough lastPos (mkPoint lo la ts) = false ↔ closeTo lastPos lo la.
Proof. unfold movedEnough, closeTo, exceeds. simpl. by rewrite orb_false_iff. Qed.

(** One record never throws on a map of non-empty buffers, and touches at
    most the buffer of its own identifier. *)
Lemma recordPosition_step_f64 ts m ac :
  nonEmptyBuffers m →
  ∃ m', recordPosition ts m ac = Some m' ∧ nonEmptyBuffers m' ∧
        (∀ id, id ≠ icao24 ac → m' !! id = m !! id) ∧
        (∀ id, is_Some (m !! id) → is_Some (m' !! id)).
Proof.
  intros Hne. unfold recordPosition.
  assert (∃ m', Some m = Some m' ∧ nonEmptyBuffers m' ∧
        (∀ id, id ≠ icao24 ac → m' !! id = m !! id) ∧
        (∀ id, is_Some (m !! id) → is_Some (m' !! id))) as Hsame.
  { exists m. done. }
  destruct (latitude ac) as [| |la]; [by apply Hsame..|].
  destruct (longitude ac) as [| |lo]; [by apply Hsame..|].
  destruct (truthy_string (icao24 ac)); [|by apply Hsame].
  destruct (m !! icao24 ac) as [buf|] eqn:Hbuf; simpl.
  - destruct (last_is_Some buf) as [lp Hlp]; [by eapply Hne|].
    rewrite Hlp. simpl.
    destruct (movedEnough lp _); [|by apply Hsame].
    eexists. split; [done|]. split; [|split].
    + apply map_Forall_insert_2; [apply appendCapped_nonempty_f64 | done].
    + intros id Hid. by rewrite lookup_insert_ne.
    + intros id Hs. destruct (decide (id = icao24 ac)) as [->|].
      * rewrite lookup_insert_eq. eauto.
      * by rewrite lookup_insert_ne.
  - eexists. split; [done|]. split; [|split].
    + apply map_Forall_insert_2; [done | done].
    + intros id Hid. by rewrite lookup_insert_ne.
    + intros id Hs. destruct (decide (id = icao24 ac)) as [->|].
      * rewrite lookup_insert_eq. eauto.
      * by rewrite lookup_insert_ne.
Qed.

Lemma present_cons_f64 ac data id :
  present (ac :: data) id ↔ icao24 ac = id ∨ present data id.
Proof.
  unfold present. split.
  - intros (a & Hin & Hid). apply elem_of_cons in Hin as [->|Hin]; [by left|].
    right. eauto.
  - intros [Hid|(a & Hin & Hid)].
    + exists ac. split; [left | done].
    + exists a. split; [by right | done].
Qed.

(** The first loop as a whole. *)
Lemma recordAll_spec_f64 ts data m :
  nonEmptyBuffers m →
  ∃ r, recordAll ts data m = Some r ∧ nonEmptyBuffers r ∧
       (∀ id, ¬ present data id → r !! id = m !! id) ∧
       (∀ id, is_Some (m !! id) → is_Some (r !! id)).
Proof.
  unfold recordAll. revert m.
  induction data as [|ac data IH]; intros m Hne; simpl.
  - exists m. done.
  - destruct (recordPosition_step_f64 ts m ac Hne) as (m1 & -> & Hne1 & Hother & Hdom).
    simpl. destruct (IH m1 Hne1) as (r & -> & Hner & Habs & Hdomr).
    exists r. split; [done|]. split; [done|]. split.
    + intros id Hid. rewrite Habs.
      * apply Hother. intros ->. apply Hid. apply present_cons_f64. by left.
      * intros Hp. apply Hid. apply present_cons_f64. by right.
    + intros id Hs. by apply Hdomr, Hdom.
Qed.

(** The second loop. *)
Lemma cleanupOne_step_f64 maxAge ct data (m : gmap string (list TrackPoint)) k b :
  m !! k = Some b → b ≠ [] →
  ∃ m1, cleanupOne maxAge ct data m k = Some m1 ∧
        (∀ id, id ≠ k → m1 !! id = m !! id) ∧
        (present data k → m1 !! k = Some b) ∧
        (¬ present data k → m1 !! k = afterCleanup maxAge ct b).
Proof.
  intros Hb Hbne. destruct (last_is_Some b Hbne) as [lp Hlp].
  unfold cleanupOne.
  destruct (findAircraft data k) as [ac|] eqn:Hfind.
  - exists m. repeat split; [done|].
    intros Hn. exfalso. apply Hn, findAircraft_present_f64. by rewrite Hfind.
  - apply findAircraft_None_f64 in Hfind.
    rewrite Hb. simpl. rewrite Hlp. simpl.
    unfold afterCleanup. rewrite Hlp.
    destruct (tooOld maxAge ct lp).
    + eexists. split; [done|]. repeat split.
      * intros id Hid. by rewrite lookup_delete_ne.
      * done.
      * intros _. by rewrite lookup_delete_eq.
    + eexists. split; [done|]. repeat split; done.
Qed.

Lemma cleanup_loop_f64 maxAge ct data ks (m : gmap string (list TrackPoint)) :
  NoDup ks →
  (∀ k, k ∈ ks → ∃ b, m !! k = Some b ∧ b ≠ []) →
  ∃ m', forEachM (cleanupOne maxAge ct data) ks m = Some m' ∧
        (∀ id, id ∈ ks → ¬ present data id →
               m' !! id = b ← m !! id; afterCleanup maxAge ct b) ∧
        (∀ id, id ∉ ks ∨ present data id → m' !! id = m !! id).
Proof.
  revert m. induction ks as [|k ks IH]; intros m Hnd Hks; simpl.
  - exists m. split; [done|]. split; [|done].
    intros id Hin. by apply elem_of_nil in Hin.
  - apply NoDup_cons in Hnd as [Hk Hnd].
    destruct (Hks k) as (b & Hb & Hbne); [left|].
    destruct (cleanupOne_step_f64 maxAge ct data m k b Hb Hbne)
      as (m1 & -> & Hother & Hpres & Habs).
    simpl. destruct (IH m1 Hnd) as (m' & -> & Hm'1 & Hm'2).
    { intros k' Hk'. rewrite Hother; [apply Hks; by right|].
      intros ->. done. }
    exists m'. repeat split.
    + intros id Hin Hp. apply elem_of_cons in Hin as [->|Hin].
      * rewrite Hm'2 by (by left). rewrite (Habs Hp), Hb. done.
      * rewrite (Hm'1 id Hin Hp). rewrite Hother; [done|]. by intros ->.
    + intros id Hid. destruct (decide (id = k)) as [->|Hne].
      * rewrite Hm'2 by (by left).
        destruct Hid as [Hid|Hid]; [exfalso; apply Hid; left|].
        rewrite (Hpres Hid). done.
      * rewrite Hm'2, Hother; [done..|].
        destruct Hid as [Hid|Hid]; [left|by right].
        intros Hin. apply Hid. by right.
Qed.

Lemma elem_of_keys_f64 (m : gmap string (list TrackPoint)) id :
  id ∈ keys m ↔ is_Some (m !! id).
Proof.
  unfold keys. rewrite list_elem_of_fmap. split.
  - intros ([k b] & -> & Hin). apply elem_of_map_to_list in Hin. simpl. eauto.
  - intros [b Hb]. exists (id, b). split; [done|]. by apply elem_of_map_to_list.
Qed.

(** On a map of non-empty buffers an update never throws.  After it, the
    buffer of an identifier of the snapshot is the one the first loop
    left, and the buffer of any other identifier is the previous one,
    unless the cleanup removed it. *)
Lemma updateTracks_spec_f64 maxAge data ts now m :
  nonEmptyBuffers m →
  ∃ r m', recordAll ts data m = Some r ∧
          updateTracks maxAge data ts now m = Some m' ∧
          nonEmptyBuffers m' ∧
          (∀ id, present data id → m' !! id = r !! id) ∧
          (∀ id, ¬ present data id →
                 m' !! id = b ← m !! id; afterCleanup maxAge (now `div` 1000) b).
Proof.
  intros Hne. unfold updateTracks.
  destruct (recordAll_spec_f64 ts data m Hne) as (r & Hr & Hner & Habs & Hdom).
  unfold recordAll in Hr. rewrite Hr. simpl.
  destruct (cleanup_loop_f64 maxAge (now `div` 1000) data (keys r) r)
    as (m' & -> & Hm'1 & Hm'2).
  { apply NoDup_fst_map_to_list. }
  { intros k Hk. apply elem_of_keys_f64 in Hk as [b Hb]. exists b. split; [done|].
    by apply (Hner k). }
  assert (∀ id b', m' !! id = Some b' → r !! id = Some b') as Hsub.
  { intros id b'. destruct (decide (id ∈ keys r)) as [Hin|Hin].
    - destruct (findAircraft data id) as [ac|] eqn:Hf.
      + rewrite Hm'2; [done|]. right. apply findAircraft_present_f64. by rewrite Hf.
      + apply findAircraft_None_f64 in Hf. rewrite (Hm'1 id Hin Hf).
        destruct (r !! id) as [b|]; simpl; [|done]. unfold afterCleanup.
        destruct (last b) as [lp|]; [|done]. by destruct (tooOld _ _ lp).
    - rewrite Hm'2; [done | by left]. }
  exists r, m'. split; [done|]. split; [done|]. split; [|split].
  - intros id b Hb. apply (Hner id). by apply Hsub.
  - intros id Hp. apply Hm'2. by right.
  - intros id Hp. rewrite <- (Habs id Hp).
    destruct (decide (id ∈ keys r)) as [Hin|Hin].
    + by apply Hm'1.
    + rewrite Hm'2 by (by left).
      destruct (r !! id) as [b|] eqn:E; [|done].
      exfalso. apply Hin, elem_of_keys_f64. by rewrite E.
Qed.

(** What the first loop does with a record that has two numeric
    coordinates and a non-empty identifier. *)
Lemma recordPosition_valid_f64 ts (m : gmap string (list TrackPoint)) id la lo ls :
  truthy_string id = true →
  recordPosition ts m (mkAircraft id (Num la) (Num lo) ls) =
    match m !! id with
    | None => Some (<[id := [mkPoint lo la ts]]> m)
    | Some buf =>
        lastPos ← last buf;
        if movedEnough lastPos (mkPoint lo la ts)
        then Some (<[id := appendCapped buf (mkPoint lo la ts)]> m)
        else Some m
    end.
Proof. intros Hid. unfold recordPosition. simpl. by rewrite Hid. Qed.

(** An update with a one-record snapshot: the buffer of the record's
    identifier is the one [recordPosition] produced. *)
Lemma update_single_f64 maxAge ts now (m : gmap string (list TrackPoint)) ac :
  nonEmptyBuffers m →
  ∃ r m', recordPosition ts m ac = Some r ∧
          updateTracks maxAge [ac] ts now m = Some m' ∧
          nonEmptyBuffers m' ∧
          m' !! icao24 ac = r !! icao24 ac.
Proof.
  intros Hne.
  assert (present [ac] (icao24 ac)) as Hp by (exists ac; split; [left | done]).
  destruct (updateTracks_spec_f64 maxAge [ac] ts now m Hne)
    as (r & m' & Hr & Hm' & Hne' & Hpres & _).
  exists r, m'. split; [|split; [done|split; [done|by apply Hpres]]].
  unfold recordAll in Hr. simpl in Hr.
  destruct (recordPosition ts m ac); simpl in Hr; congruence.
Qed.

Lemma runArrivals_app_f64 maxAge l1 l2 (m : gmap string (list TrackPoint)) :
  runArrivals maxAge (l1 ++ l2) m = m' ← runArrivals maxAge l1 m; runArrivals maxAge l2 m'.
Proof. unfold runArrivals. apply forEachM_app. Qed.

(** No sequence of arrivals throws on a map of non-empty buffers. *)
Lemma runArrivals_total_f64 maxAge arrivals (m : gmap string (list TrackPoint)) :
  nonEmptyBuffers m →
  ∃ m', runArrivals maxAge arrivals m = Some m' ∧ nonEmptyBuffers m'.
Proof.
  intros Hne. unfold runArrivals.
  apply (forEachM_invariant _ nonEmptyBuffers); [|done].
  intros s a Hs _. unfold tracksEffect.
  destruct (0 <? length (ar_snapshot a))%nat; [|by exists s].
  destruct (updateTracks_spec_f64 maxAge (ar_snapshot a) (ar_timestamp a)
              (ar_cleanupNow a) s Hs) as (r & s' & _ & Hs' & Hne' & _).
  by exists s'.
Qed.

(** One sighting of an identifier that has a buffer. *)
Lemma sighting_step_f64 maxAge id s (m : gmap string (list TrackPoint)) b lastPoint :
  truthy_string id = true →
  nonEmptyBuffers m →
  m !! id = Some b →
  last b = Some lastPoint →
  ∃ m', runArrivals maxAge [sightingArrival id s] m = Some m' ∧
        nonEmptyBuffers m' ∧
        m' !! id = Some (if movedEnough lastPoint (sightingPoint s)
                         then appendCapped b (sightingPoint s) else b).
Proof.
  intros Hid Hne Hb Hlast.
  unfold runArrivals, sightingArrival, tracksEffect. simpl.
  destruct (update_single_f64 maxAge (s_time s) (s_cleanupNow s) m
              (mkAircraft id (Num (s_lat s)) (Num (s_lon s)) (s_lastseen s)) Hne)
    as (r & m' & Hr & -> & Hne' & Heq).
  simpl. exists m'. split; [done|]. split; [done|].
  rewrite (recordPosition_valid_f64 _ m id _ _ _ Hid), Hb in Hr.
  simpl in Hr. rewrite Hlast in Hr. simpl in Hr, Heq. rewrite Heq.
  fold (sightingPoint s) in Hr.
  destruct (movedEnough lastPoint (sightingPoint s)); injection Hr as <-.
  - by rewrite lookup_insert_eq.
  - done.
Qed.

(** Sightings that all fail the test against the buffer's last point
    leave the buffer as it is. *)
Lemma feed_close_f64 maxAge id ss (m : gmap string (list TrackPoint)) b lastPoint :
  truthy_string id = true →
  nonEmptyBuffers m →
  m !! id = Some b →
  last b = Some lastPoint →
  Forall (λ s, closeTo lastPoint (s_lon s) (s_lat s)) ss →
  ∃ m', runArrivals maxAge (sightingArrival id <$> ss) m = Some m' ∧
        nonEmptyBuffers m' ∧
        m' !! id = Some b.
Proof.
  intros Hid Hne Hb Hlast Hclose. revert m Hne Hb.
  induction Hclose as [|s ss Hs Hss IH]; intros m Hne Hb.
  - exists m. done.
  - change (sightingArrival id <$> s :: ss)
      with ([sightingArrival id s] ++ (sightingArrival id <$> ss)).
    rewrite runArrivals_app_f64.
    destruct (sighting_step_f64 maxAge id s m b lastPoint Hid Hne Hb Hlast)
      as (m1 & -> & Hne1 & Hb1).
    simpl. apply IH; [done|]. rewrite Hb1.
    apply (movedEnough_close_f64 lastPoint (s_lon s) (s_lat s) (s_time s)) in Hs.
    unfold sightingPoint. by rewrite Hs.
Qed.

(** An aircraft that drifts by 0.0008 degrees between sightings: every
    sighting fails the test of line 192 against the sighting before it,
    the buffer exists with one point after the first sighting, and yet the
    third sighting is recorded, since it is 0.0016 degrees away from the
    last recorded point. *)
Lemma slow_drift_is_recorded :
  consecutive sightingClose drifting ∧
  ∃ m1 m,
    runArrivals 5 (sightingArrival "A" <$> take 1 drifting) ∅ = Some m1 ∧
    m1 !! "A" = Some [mkPoint 20 10 1000000] ∧
    runArrivals 5 (sightingArrival "A" <$> drop 1 drifting) m1 = Some m ∧
    runArrivals 5 (sightingArrival "A" <$> drifting) ∅ = Some m ∧
    m !! "A" = Some [mkPoint 20 10 1000000; mkPoint 20.0016 10 1120000].
Proof.
  split.
  - unfold drifting, sightingClose, closeTo. simpl.
    repeat split; by vm_compute.
  - do 2 eexists. repeat split; vm_compute; reflexivity.
Qed.

(** C1, amended.  The test for a new point compares the incoming position
    with the last recorded point of the buffer, not with the previous
    incoming position.  The differences and the comparison are those the
    code computes on binary64 numbers.  Any sequence of positions that all
    fail the test against that last recorded point, on both axes, leaves
    the buffer as it is, whatever its length (a buffer of one point still
    has exactly that point); a position is appended exactly when its
    computed difference from the last recorded point exceeds the threshold
    in longitude or in latitude. *)
Theorem dedup_against_last_recorded_point maxAge id
    (m : gmap string (list TrackPoint)) b lastPoint :
  truthy_string id = true →
  nonEmptyBuffers m →
  m !! id = Some b →
  last b = Some lastPoint →
  (∀ ss, Forall (λ s, closeTo lastPoint (s_lon s) (s_lat s)) ss →
     ∃ m', runArrivals maxAge (sightingArrival id <$> ss) m = Some m' ∧
           m' !! id = Some b ∧
           (b = [lastPoint] → ∃ b', m' !! id = Some b' ∧ length b' = 1%nat)) ∧
  (∀ s, ∃ m', runArrivals maxAge [sightingArrival id s] m = Some m' ∧
     (farFrom lastPoint (s_lon s) (s_lat s) →
        m' !! id = Some (appendCapped b (sightingPoint s))) ∧
     (closeTo lastPoint (s_lon s) (s_lat s) → m' !! id = Some b)).
Proof.
  intros Hid Hne Hb Hlast. split.
  - intros ss Hclose.
    destruct (feed_close_f64 maxAge id ss m b lastPoint Hid Hne Hb Hlast Hclose)
      as (m' & Hm' & _ & Hb').
    exists m'. split; [done|]. split; [done|].
    intros ->. exists [lastPoint]. done.
  - intros s.
    destruct (sighting_step_f64 maxAge id s m b lastPoint Hid Hne Hb Hlast)
      as (m' & Hm' & _ & Hb').
    exists m'. split; [done|]. rewrite Hb'. split.
    + intros Hfar. apply (movedEnough_far_f64 _ _ _ (s_time s)) in Hfar.
      unfold sightingPoint. by rewrite Hfar.
    + intros Hclose. apply (movedEnough_close_f64 _ _ _ (s_time s)) in Hclose.
      unfold sightingPoint. by rewrite Hclose.
Qed.

(** C1, amended, on a buffer of one point at longitude 20 and latitude 10.
    Two sightings at longitudes 20.0008 and 20.0005 leave the buffer as it
    is.  A sighting at longitude 20.001 is appended: the difference the
    code computes for it is 0.0010000000000012221, which exceeds the
    threshold. *)
Lemma dedup_against_last_recorded_point_witness :
  (∃ m', runArrivals 5 (sightingArrival "A" <$>
                          [mkSighting 20.0008 10 Missing 1060000 1060000;
                           mkSighting 20.0005 10 Missing 1120000 1120000])
           {[ "A" := [mkPoint 20 10 1000000] ]} = Some m' ∧
         m' !! "A" = Some [mkPoint 20 10 1000000]) ∧
  (∃ m', runArrivals 5 [sightingArrival "A" (mkSighting 20.001 10 Missing 1060000 1060000)]
           {[ "A" := [mkPoint 20 10 1000000] ]} = Some m' ∧
         m' !! "A" = Some [mkPoint 20 10 1000000; mkPoint 20.001 10 1060000]).
Proof.
  assert (nonEmptyBuffers ({[ "A" := [mkPoint 20 10 1000000] ]}
                             : gmap string (list TrackPoint))) as Hne.
  { apply (bool_decide_unpack _). vm_compute. reflexivity. }
  assert (({[ "A" := [mkPoint 20 10 1000000] ]} : gmap string (list TrackPoint)) !! "A"
          = Some [mkPoint 20 10 1000000]) as Hb.
  { vm_compute. reflexivity. }
  destruct (dedup_against_last_recorded_point 5 "A" _ _ (mkPoint 20 10 1000000)
              eq_refl Hne Hb eq_refl) as [Hkeep Hone].
  split.
  - destruct (Hkeep [mkSighting 20.0008 10 Missing 1060000 1060000;
                     mkSighting 20.0005 10 Missing 1120000 1120000])
      as (m' & Hm' & Hb' & _).
    + repeat constructor.
    + exists m'. split; [exact Hm' | exact Hb'].
  - destruct (Hone (mkSighting 20.001 10 Missing 1060000 1060000))
      as (m' & Hm' & Hfar & _).
    exists m'. split; [exact Hm'|]. apply Hfar. left. vm_compute. reflexivity.
Defined.

(** ** Neighbouring points of a buffer *)

Lemma cleanupOne_preserves_f64 (P : string → list TrackPoint → Prop)
    maxAge ct data (m m' : gmap string (list TrackPoint)) k :
  map_Forall P m → cleanupOne maxAge ct data m k = Some m' → map_Forall P m'.
Proof.
  intros Hm. unfold cleanupOne.
  destruct (findAircraft data k); [by intros [= <-]|].
  destruct (m !! k) as [b|]; simpl; [|done].
  destruct (last b) as [lp|]; simpl; [|done].
  destruct (tooOld maxAge ct lp); intros [= <-]; [by apply map_Forall_delete | done].
Qed.

Section BufferInvariant64.
(** A property of the buffers that a first point establishes and that an
    appended point keeps when it passed the test of line 192. *)
Variable P : string → list TrackPoint → Prop.

Hypothesis P_new : ∀ ts ac la lo,
  latitude ac = Num la → longitude ac = Num lo →
  truthy_string (icao24 ac) = true →
  P (icao24 ac) [mkPoint lo la ts].

Hypothesis P_append : ∀ ts ac la lo b lastPos,
  latitude ac = Num la → longitude ac = Num lo →
  truthy_string (icao24 ac) = true →
  P (icao24 ac) b → last b = Some lastPos →
  movedEnough lastPos (mkPoint lo la ts) = true →
  P (icao24 ac) (appendCapped b (mkPoint lo la ts)).

Lemma recordPosition_preserves_f64 ts (m m' : gmap string (list TrackPoint)) ac :
  map_Forall P m → recordPosition ts m ac = Some m' → map_Forall P m'.
Proof.
  intros Hm. unfold recordPosition.
  destruct (latitude ac) as [| |la] eqn:Hla; try by intros [= <-].
  destruct (longitude ac) as [| |lo] eqn:Hlo; try by intros [= <-].
  destruct (truthy_string (icao24 ac)) eqn:Hid; [|by intros [= <-]].
  destruct (m !! icao24 ac) as [buf|] eqn:Hbuf; simpl.
  - destruct (last buf) as [lp|] eqn:Hlp; simpl; [|done].
    destruct (movedEnough lp _) eqn:Hmoved; intros [= <-]; [|done].
    apply map_Forall_insert_2; [|done].
    apply (P_append ts ac la lo buf lp); try done. by apply (Hm (icao24 ac)).
  - intros [= <-]. apply map_Forall_insert_2; [|done].
    by apply (P_new ts ac la lo).
Qed.

Lemma updateTracks_preserves_f64 maxAge data ts now (m m' : gmap string (list TrackPoint)) :
  map_Forall P m → updateTracks maxAge data ts now m = Some m' → map_Forall P m'.
Proof.
  intros Hm. unfold updateTracks.
  destruct (forEachM (recordPosition ts) data m) as [r|] eqn:Hr; simpl; [|done].
  assert (map_Forall P r) as HPr.
  { apply (forEachM_preserves (recordPosition ts) (map_Forall P) data m r); [|done..].
    intros s ac s' Hac Hs Hrec.
    by apply (recordPosition_preserves_f64 ts s s' ac). }
  apply (forEachM_preserves _ (map_Forall P)); [|done].
  intros s k s' _ Hs. by apply cleanupOne_preserves_f64.
Qed.

Lemma runArrivals_preserves_f64 maxAge arrivals (m m' : gmap string (list TrackPoint)) :
  map_Forall P m → runArrivals maxAge arrivals m = Some m' → map_Forall P m'.
Proof.
  intros Hm. unfold runArrivals.
  apply (forEachM_preserves _ (map_Forall P)); [|done].
  intros s a s' Ha Hs. unfold tracksEffect.
  destruct (0 <? length (ar_snapshot a))%nat; [|by intros [= <-]].
  by apply updateTracks_preserves_f64.
Qed.
End BufferInvariant64.

(** X2.  Whatever snapshots of records with ICAO addresses arrive,
    starting from the empty map, the updates do not throw, and in every
    buffer each point passed the test of line 192 against the point
    before it: the difference that the code computes between two
    neighbouring points exceeds [TRACK_MIN_DISTANCE_CHANGE] in longitude
    or in latitude. *)
Theorem neighbouring_points_are_far_apart maxAge arrivals :
  forallb (λ a, identified (ar_snapshot a)) arrivals = true →
  ∃ m', runArrivals maxAge arrivals ∅ = Some m' ∧
        ∀ id b, m' !! id = Some b → consecutive pointsFar b.
Proof.
  intros _.
  destruct (runArrivals_total_f64 maxAge arrivals ∅) as (m' & Hm' & _);
    [apply map_Forall_empty|].
  exists m'. split; [done|].
  apply (runArrivals_preserves_f64 (λ _ b, consecutive pointsFar b))
    with (maxAge := maxAge) (arrivals := arrivals) (m := ∅); try done.
  intros ts ac la lo b lp _ _ _ Hb Hlast Hmoved.
  rewrite appendCapped_drop_f64. apply consecutive_drop, consecutive_snoc.
  split; [done|]. intros y Hy. rewrite Hlast in Hy. injection Hy as <-.
  by apply (movedEnough_far_f64 lp lo la ts).
Qed.

(** X2 on three snapshots of the aircraft 4ca7b3, which moves by 0.0008
    degrees of longitude between any two of them. *)
Lemma neighbouring_points_are_far_apart_witness :
  ∃ m', runArrivals 5 (sightingArrival "4ca7b3" <$> drifting) ∅ = Some m' ∧
        ∀ id b, m' !! id = Some b → consecutive pointsFar b.
Proof.
  apply (neighbouring_points_are_far_apart 5 (sightingArrival "4ca7b3" <$> drifting)).
  reflexivity.
Defined.
